(** * Music Playlist Manager: the track collection and its CSV codec

    A shallow embedding of [main.c] (the single C source of the program)
    and the proofs of the properties its specification states.

    Conventions of the embedding.
    - A C string ([char *], NUL-terminated) is the [list ascii] of the
      bytes before its terminator; such a list holds no NUL byte
      ([cstring]).  Reading [*s] at the end of the list yields NUL.
    - [size_t] values (sizes, indexes) are [nat]; [int] values are [Z]
      with the 32-bit wrap-around written out ([wrap_int]).
    - The dynamic array [Playlist] is the list of its first [size] slots
      together with its capacity.  Heap ownership ([strdup], [free]) is
      not modelled: strings are values, and allocation is taken to
      succeed (the program exits otherwise).
    - A file is the list of its bytes; [fopen] is represented by its
      result, [None] when the file cannot be opened.
    - A write past the end of the fixed buffer [tmp] of [csv_read_field]
      has no defined result: the functions that can reach one return
      [option], with [None] for that case. *)

From Stdlib Require Import ZArith Lia Ascii String.
From stdpp Require Import base tactics option list sorting.

Local Open Scope Z_scope.
Local Open Scope list_scope.

(** ** Characters and C strings *)

Definition NUL : ascii := "000"%char.
Definition NL : ascii := "010"%char.
Definition COMMA : ascii := ","%char.
Definition DQUOTE : ascii := Eval cbv in ascii_of_nat 34.

(** String literals of the source, as C strings. *)
Definition lit (s : string) : list ascii := list_ascii_of_string s.

(** [s] is the content of a C string: no byte of it is the terminator. *)
Definition cstring (s : list ascii) : Prop := Forall (fun c => c ≠ NUL) s.

(** [strchr(s, c) != NULL] for a character [c] other than NUL. *)
Fixpoint strchr (s : list ascii) (c : ascii) : option (list ascii) :=
  match s with
  | [] => None
  | d :: s' => if Ascii.eqb d c then Some s else strchr s' c
  end.

(** [strncmp(h, n, strlen(n)) == 0]: [n] is a prefix of [h]. *)
Fixpoint starts_with (h n : list ascii) : bool :=
  match n, h with
  | [], _ => true
  | _ :: _, [] => false
  | c :: n', d :: h' => Ascii.eqb c d && starts_with h' n'
  end.

(** [strstr(h, n)]: the suffix of [h] at the first occurrence of [n],
    [None] (NULL) when there is none. *)
Fixpoint strstr (h n : list ascii) : option (list ascii) :=
  if starts_with h n then Some h
  else match h with
       | [] => None
       | _ :: h' => strstr h' n
       end.

(** [tolower] in the "C" locale (the program never calls [setlocale]). *)
Definition tolower (c : ascii) : ascii :=
  let n := N_of_ascii c in
  if ((65 <=? n) && (n <=? 90))%N then ascii_of_N (n + 32) else c.

Definition str_tolower_copy (s : list ascii) : list ascii := map tolower s.

(** [isspace] in the "C" locale: space, and the controls 9 to 13. *)
Definition isspace (c : ascii) : bool :=
  let n := N_of_ascii c in
  ((n =? 32) || ((9 <=? n) && (n <=? 13)))%N.

Definition isdigit (c : ascii) : bool :=
  let n := N_of_ascii c in ((48 <=? n) && (n <=? 57))%N.

(** ** 32-bit [int] *)

Definition INT_MIN : Z := - 2 ^ 31.
Definition INT_MAX : Z := 2 ^ 31 - 1.
Definition LONG_MIN : Z := - 2 ^ 63.
Definition LONG_MAX : Z := 2 ^ 63 - 1.

Definition int_range (z : Z) : Prop := INT_MIN <= z <= INT_MAX.

(** The value an [int] holds after a result [z] is reduced to 32 bits
    (two's complement). *)
Definition wrap_int (z : Z) : Z := (z + 2 ^ 31) mod 2 ^ 32 - 2 ^ 31.

(** ** Tracks and the playlist *)

Definition INITIAL_CAP : nat := 32.
Definition MAX_LINE : nat := 1024.

Record Track := mkTrack {
  title : list ascii;
  artist : list ascii;
  album : list ascii;
  duration : Z
}.

Record Playlist := mkPlaylist {
  items : list Track;
  cap : nat
}.

Definition size (pl : Playlist) : nat := length (items pl).

Definition init_playlist : Playlist := mkPlaylist [] INITIAL_CAP.

Definition ensure_capacity (pl : Playlist) : Playlist :=
  if (size pl <? cap pl)%nat then pl
  else mkPlaylist (items pl) (cap pl * 2).

Definition add_track (pl : Playlist) (ti ar al : list ascii) (dur : Z)
  : Playlist :=
  let pl := ensure_capacity pl in
  mkPlaylist (items pl ++ [mkTrack ti ar al dur]) (cap pl).

(** The loop of [remove_track_at]:
    [for (i = idx + 1; i < size; ++i) items[i-1] = items[i];]
    run for the [n] iterations that remain from [i]. *)
Fixpoint shift_left (a : list Track) (i n : nat) : list Track :=
  match n with
  | O => a
  | S n' =>
      match a !! i with
      | Some t => shift_left (<[(i - 1)%nat := t]> a) (S i) n'
      | None => a
      end
  end.

Definition remove_track_at (pl : Playlist) (idx : nat) : Playlist :=
  if (size pl <=? idx)%nat then pl
  else
    let a := shift_left (items pl) (idx + 1) (size pl - (idx + 1)) in
    mkPlaylist (take (size pl - 1) a) (cap pl).

(** The states the program builds: a capacity that is positive and not
    exceeded. *)
Definition playlist_ok (pl : Playlist) : Prop :=
  (0 < cap pl)%nat ∧ (size pl ≤ cap pl)%nat.

(** ** CSV helpers *)

Definition nonnull {A} (p : option A) : bool :=
  match p with Some _ => true | None => false end.

(** The loop of [csv_escape_field] over the bytes of a quoted field. *)
Fixpoint escape_body (s : list ascii) : list ascii :=
  match s with
  | [] => []
  | c :: s' =>
      if Ascii.eqb c DQUOTE then DQUOTE :: DQUOTE :: escape_body s'
      else c :: escape_body s'
  end.

(** [csv_escape_field(f, s)]: the bytes it writes to [f]. *)
Definition csv_escape_field (s : list ascii) : list ascii :=
  if nonnull (strchr s COMMA) || nonnull (strchr s DQUOTE)
  then DQUOTE :: escape_body s ++ [DQUOTE]
  else s.

(** The first loop of the quoted branch of [csv_read_field], entered
    with [ti] bytes already in [tmp]: the bytes it stores from index
    [ti] on, and where [s] points afterwards.  [tmp] has [MAX_LINE]
    slots; a store at an index that is not below [MAX_LINE] gives
    [None]. *)
Fixpoint read_quoted (s : list ascii) (ti : nat)
  : option (list ascii * list ascii) :=
  match s with
  | [] => Some ([], [])
  | c :: s' =>
      if Ascii.eqb c DQUOTE then
        match s' with
        | d :: s'' =>
            if Ascii.eqb d DQUOTE then
              if (MAX_LINE <=? ti)%nat then None
              else
                match read_quoted s'' (S ti) with
                | Some (fld, r) => Some (DQUOTE :: fld, r)
                | None => None
                end
            else Some ([], s')
        | [] => Some ([], s')
        end
      else
        if (MAX_LINE <=? ti)%nat then None
        else if (MAX_LINE <=? S ti + 1)%nat then Some ([c], s')
        else
          match read_quoted s' (S ti) with
          | Some (fld, r) => Some (c :: fld, r)
          | None => None
          end
  end.

(** The loop of the unquoted branch: every store is followed by the
    bound check, so the index stays below [MAX_LINE - 1]. *)
Fixpoint read_plain (s : list ascii) (ti : nat) : list ascii * list ascii :=
  match s with
  | [] => ([], [])
  | c :: s' =>
      if Ascii.eqb c COMMA then ([], s)
      else if (MAX_LINE <=? S ti + 1)%nat then ([c], s')
      else let '(fld, r) := read_plain s' (S ti) in (c :: fld, r)
  end.

(** The loop that advances [s] to the next comma or to the terminator. *)
Fixpoint skip_to_comma (s : list ascii) : list ascii :=
  match s with
  | [] => []
  | c :: s' => if Ascii.eqb c COMMA then s else skip_to_comma s'
  end.

(** The step over that comma, when there is one. *)
Definition skip_comma (s : list ascii) : list ascii :=
  match s with
  | c :: s' => if Ascii.eqb c COMMA then s' else s
  | [] => []
  end.

(** The value stored back into [*sp]: [s], or NULL at the terminator. *)
Definition or_null (s : list ascii) : option (list ascii) :=
  match s with [] => None | _ :: _ => Some s end.

(** [csv_read_field(&p)]: the field returned and the new value of [p]
    ([None] is NULL).  The outer [None] is a store past the end of
    [tmp], the terminator [tmp[ti] = 0] included. *)
Definition csv_read_field (sp : option (list ascii))
  : option (list ascii * option (list ascii)) :=
  match sp with
  | None | Some [] => Some ([], None)
  | Some (c :: s') =>
      if Ascii.eqb c DQUOTE then
        match read_quoted s' 0 with
        | Some (fld, s1) =>
            if (MAX_LINE <=? length fld)%nat then None
            else Some (fld, or_null (skip_comma (skip_to_comma s1)))
        | None => None
        end
      else
        let '(fld, s1) := read_plain (c :: s') 0 in
        Some (fld, or_null (skip_comma s1))
  end.

(** ** The C library functions the codec calls *)

(** [fgets(buf, n, f)] on the unread bytes [f] of a stream: at most
    [n - 1] bytes, up to and including the first newline. *)
Fixpoint fgets_bytes (n : nat) (f : list ascii) : list ascii * list ascii :=
  match n, f with
  | S n', c :: f' =>
      if Ascii.eqb c NL then ([c], f')
      else let '(l, r) := fgets_bytes n' f' in (c :: l, r)
  | _, _ => ([], f)
  end.

(** [None] is the NULL that [fgets] returns at end of file. *)
Definition fgets (n : nat) (f : list ascii)
  : option (list ascii * list ascii) :=
  match f with
  | [] => None
  | _ :: _ => Some (fgets_bytes (n - 1) f)
  end.

(** The bytes of [s] before the first [c]. *)
Fixpoint cut_at (c : ascii) (s : list ascii) : list ascii :=
  match s with
  | [] => []
  | d :: s' => if Ascii.eqb d c then [] else d :: cut_at c s'
  end.

Fixpoint skip_spaces (s : list ascii) : list ascii :=
  match s with
  | c :: s' => if isspace c then skip_spaces s' else s
  | [] => []
  end.

Definition digit_val (c : ascii) : Z := Z.of_N (N_of_ascii c) - 48.

Fixpoint parse_digits (s : list ascii) (acc : Z) : Z :=
  match s with
  | c :: s' =>
      if isdigit c then parse_digits s' (acc * 10 + digit_val c) else acc
  | [] => acc
  end.

(** [strtol(s, NULL, 10)] of an LP64 C library: white space, an
    optional sign, the decimal digits, the value saturated to [long]. *)
Definition strtol (s : list ascii) : Z :=
  let s := skip_spaces s in
  let '(neg, s) :=
    match s with
    | c :: s' =>
        if Ascii.eqb c "-" then (true, s')
        else if Ascii.eqb c "+" then (false, s')
        else (false, s)
    | [] => (false, [])
    end in
  let v := parse_digits s 0 in
  let v := if neg then - v else v in
  Z.max LONG_MIN (Z.min LONG_MAX v).

(** [atoi(s)] is [(int) strtol(s, NULL, 10)]. *)
Definition atoi (s : list ascii) : Z := wrap_int (strtol s).

Definition digit_char (d : Z) : ascii := ascii_of_N (Z.to_N (48 + d)).

(** The decimal digits of [n >= 0], at most [fuel] of them, most
    significant first, in front of [acc]. *)
Fixpoint digits_of (fuel : nat) (n : Z) (acc : list ascii) : list ascii :=
  match fuel with
  | O => acc
  | S fuel' =>
      let acc' := digit_char (n mod 10) :: acc in
      if n / 10 =? 0 then acc' else digits_of fuel' (n / 10) acc'
  end.

(** What [fprintf(f, "%d", d)] writes.  A number has no more decimal
    digits than binary ones, which bounds the loop of [digits_of]. *)
Definition print_int (d : Z) : list ascii :=
  if d <? 0 then "-"%char :: digits_of (S (Z.to_nat (Z.log2 (- d)))) (- d) []
  else digits_of (S (Z.to_nat (Z.log2 d))) d [].

(** ** Save and load *)

Definition csv_header : list ascii :=
  lit "title,artist,album,duration_seconds" ++ [NL].

(** One iteration of the loop of [save_playlist_csv]. *)
Definition write_record (t : Track) : list ascii :=
  csv_escape_field (title t) ++ [COMMA] ++
  csv_escape_field (artist t) ++ [COMMA] ++
  csv_escape_field (album t) ++ [COMMA] ++
  print_int (duration t) ++ [NL].

Fixpoint write_records (a : list Track) : list ascii :=
  match a with
  | [] => []
  | t :: a' => write_record t ++ write_records a'
  end.

(** [save_playlist_csv(pl, path)]: the value returned and the bytes of
    the file afterwards; [fopen_ok] tells whether [fopen(path, "w")]
    succeeded. *)
Definition save_playlist_csv (pl : Playlist) (fopen_ok : bool)
  : Z * option (list ascii) :=
  if fopen_ok then (1, Some (csv_header ++ write_records (items pl)))
  else (0, None).

(** The body of the [while] loop of [load_playlist_csv] on the buffer
    [buf] that [fgets] filled. *)
Definition load_record (pl : Playlist) (buf : list ascii) : option Playlist :=
  let line := cut_at NL (cut_at NUL buf) in
  match csv_read_field (Some line) with
  | None => None
  | Some (f1, p) =>
  match csv_read_field p with
  | None => None
  | Some (f2, p) =>
  match csv_read_field p with
  | None => None
  | Some (f3, p) =>
  match csv_read_field p with
  | None => None
  | Some (f4, p) =>
      let dur := atoi f4 in
      Some (match f1 with
            | [] => pl
            | _ :: _ => add_track pl f1 f2 f3 dur
            end)
  end end end end.

(** [while (fgets(line, sizeof(line), f)) { ... }] on the unread bytes
    [f].  Every [fgets] that succeeds consumes a byte, so the loop ends
    within [length f] iterations; [fuel] only bounds the recursion. *)
Fixpoint load_loop (fuel : nat) (pl : Playlist) (f : list ascii)
  : option Playlist :=
  match fgets MAX_LINE f with
  | None => Some pl
  | Some (buf, f') =>
      match fuel with
      | O => Some pl
      | S fuel' =>
          match load_record pl buf with
          | Some pl' => load_loop fuel' pl' f'
          | None => None
          end
      end
  end.

Definition load_records (pl : Playlist) (f : list ascii) : option Playlist :=
  load_loop (length f) pl f.

(** [load_playlist_csv(pl, path)]: the value returned and the playlist
    afterwards; [f] is the result of [fopen(path, "r")], the content of
    the file or [None]. *)
Definition load_playlist_csv (pl : Playlist) (f : option (list ascii))
  : option (Z * Playlist) :=
  match f with
  | None => Some (0, pl)
  | Some content =>
      match fgets MAX_LINE content with
      | None => Some (0, pl)
      | Some (buf, rest) =>
          let line := cut_at NUL buf in
          let data :=
            if negb (nonnull (strstr line (lit "title")))
               || negb (nonnull (strstr line (lit "artist")))
            then content else rest in
          match load_records pl data with
          | Some pl' => Some (1, pl')
          | None => None
          end
      end
  end.

(** ** Search *)

(** A line of output of the collection's commands: [print_track(t, idx)],
    or the message of [search_playlist] when nothing matched. *)
Inductive Output :=
| PrintTrack (idx : nat) (t : Track)
| NoMatches (term : list ascii).

(** The condition of the [if] in [search_playlist]; [low] is the
    lower-cased term. *)
Definition track_matches (low : list ascii) (t : Track) : bool :=
  nonnull (strstr (str_tolower_copy (title t)) low)
  || nonnull (strstr (str_tolower_copy (artist t)) low)
  || nonnull (strstr (str_tolower_copy (album t)) low).

(** The [for] loop of [search_playlist] from index [i] on, over the
    slots [a] that remain: what it prints. *)
Fixpoint search_loop (low : list ascii) (a : list Track) (i : nat)
  : list Output :=
  match a with
  | [] => []
  | t :: a' =>
      if track_matches low t then PrintTrack i t :: search_loop low a' (S i)
      else search_loop low a' (S i)
  end.

Definition search_playlist (pl : Playlist) (term : list ascii) : list Output :=
  let low := str_tolower_copy term in
  let out := search_loop low (items pl) 0 in
  match out with
  | [] => [NoMatches term]
  | _ :: _ => out
  end.

(** ** Shuffle *)

(** [tmp = a[i]; a[i] = a[j]; a[j] = tmp;] *)
Definition swap (a : list Track) (i j : nat) : list Track :=
  match a !! i, a !! j with
  | Some ti, Some tj => <[j := ti]> (<[i := tj]> a)
  | _, _ => a
  end.

(** The loop of [shuffle_playlist], [for (i = size - 1; i > 0; --i)].
    [rnd k] is the value of the [k]-th call of [rand()] after the
    [srand(time(NULL))] of this shuffle. *)
Fixpoint shuffle_loop (rnd : nat → nat) (k i : nat) (a : list Track)
  : list Track :=
  match i with
  | O => a
  | S i' =>
      let j := (rnd k mod (i + 1))%nat in
      shuffle_loop rnd (S k) i' (swap a i j)
  end.

Definition shuffle_playlist (rnd : nat → nat) (pl : Playlist) : Playlist :=
  if (size pl <? 2)%nat then pl
  else mkPlaylist (shuffle_loop rnd 0 (size pl - 1) (items pl)) (cap pl).




(** ** Sorting by duration *)

(** [ta->duration - tb->duration], an [int] subtraction. *)
Definition cmp_duration (a b : Track) : Z :=
  wrap_int (duration a - duration b).

(** [qsort] belongs to the C library, which fixes its contract and not
    its algorithm: the array is permuted so that the comparison function
    orders every element before its successor.  [qsort] below is an
    insertion sort driven by the comparison function; the results on
    sorting are stated for every array that meets [qsort_result]. *)
Fixpoint qsort_insert (cmp : Track → Track → Z) (x : Track) (l : list Track)
  : list Track :=
  match l with
  | [] => [x]
  | y :: l' => if cmp x y <=? 0 then x :: l else y :: qsort_insert cmp x l'
  end.

Fixpoint qsort (cmp : Track → Track → Z) (l : list Track) : list Track :=
  match l with
  | [] => []
  | x :: l' => qsort_insert cmp x (qsort cmp l')
  end.

Definition qsort_result (cmp : Track → Track → Z) (input output : list Track)
  : Prop :=
  Permutation input output ∧
  ∀ i a b, output !! i = Some a → output !! S i = Some b → cmp a b <= 0.

(** The [sort dur] command of [main]:
    [qsort(pl.items, pl.size, sizeof(Track), cmp_duration)]. *)
Definition sort_by_duration (pl : Playlist) : Playlist :=
  mkPlaylist (qsort cmp_duration (items pl)) (cap pl).

(** ** The notions the specification uses *)

(** [n] occurs in [h] as a substring. *)
Definition is_substring (n h : list ascii) : Prop :=
  ∃ pre post, h = pre ++ n ++ post.

(** [n] occurs in [h] as a substring when ASCII letter case is ignored. *)
Definition ci_substring (n h : list ascii) : Prop :=
  is_substring (map tolower n) (map tolower h).

(** A track matches a term when one of its three text fields does. *)
Definition track_has (term : list ascii) (t : Track) : Prop :=
  ci_substring term (title t) ∨ ci_substring term (artist t)
  ∨ ci_substring term (album t).

(** Adjacent elements are in ascending order of duration. *)
Definition ascending_durations (a : list Track) : Prop :=
  ∀ i x y, a !! i = Some x → a !! S i = Some y → duration x <= duration y.

(** The fields that [csv_escape_field] must quote. *)
Definition needs_quotes (s : list ascii) : Prop := COMMA ∈ s ∨ DQUOTE ∈ s.

(** A track as the C program can hold it: C strings, and an [int]. *)
Definition track_ok (t : Track) : Prop :=
  cstring (title t) ∧ cstring (artist t) ∧ cstring (album t)
  ∧ int_range (duration t).

(** No field of the track holds a newline. *)
Definition no_newline (t : Track) : Prop :=
  (NL ∉ title t) ∧ (NL ∉ artist t) ∧ (NL ∉ album t).

(** The record of the track fits the line buffer of the loader, its
    newline included. *)
Definition fits_line (t : Track) : Prop :=
  (length (write_record t) < MAX_LINE)%nat.

(** What a search returns: the tracks printed, with their positions. *)
Definition search_hits (out : list Output) : list (nat * Track) :=
  omap (λ o, match o with
             | PrintTrack i t => Some (i, t)
             | NoMatches _ => None
             end) out.

(** Doubling of the quote characters, as the specification words it. *)
Definition doubled_quotes (s : list ascii) : list ascii :=
  s ≫= (λ c, if ascii_dec c DQUOTE then [DQUOTE; DQUOTE] else [c]).

(** The text after a field: the end of the line, or a comma. *)
Definition field_end (rest : list ascii) : Prop :=
  rest = [] ∨ ∃ r, rest = COMMA :: r.

(** The texts in which [atoi] finds a number: white space, an optional
    sign, and a digit next. *)
Definition starts_number (s : list ascii) : Prop :=
  ∃ ws sg d rest,
    s = ws ++ sg ++ d :: rest
    ∧ Forall (λ c, isspace c = true) ws
    ∧ (sg = [] ∨ sg = ["-"%char] ∨ sg = ["+"%char])
    ∧ isdigit d = true.

(** The same test on the text, as [strtol] makes it. *)
Definition starts_number_b (s : list ascii) : bool :=
  match skip_spaces s with
  | c :: s' =>
      if Ascii.eqb c "-" || Ascii.eqb c "+"
      then match s' with d :: _ => isdigit d | [] => false end
      else isdigit c
  | [] => false
  end.

(** The line that the loop body of the loader works on: the buffer up
    to its terminator, without the newline. *)
Definition line_of (buf : list ascii) : list ascii :=
  cut_at NL (cut_at NUL buf).

(** The header test of the specification: both words occur in the
    line. *)
Definition is_header (line : list ascii) : Prop :=
  is_substring (lit "title") line ∧ is_substring (lit "artist") line.


(** The pointer that [csv_read_field] handles stays inside a line of
    at most [n] bytes. *)
Definition within (n : nat) (sp : option (list ascii)) : Prop :=
  ∀ s, sp = Some s → (length s ≤ n)%nat.

(** The buffers that the successive calls of [fgets] fill from the text
    [f], in the order of the text; [fuel] bounds the recursion as in
    [load_loop]. *)
Fixpoint fgets_lines (fuel : nat) (f : list ascii) : list (list ascii) :=
  match fgets MAX_LINE f with
  | None => []
  | Some (buf, f') =>
      match fuel with
      | O => []
      | S fuel' => buf :: fgets_lines fuel' f'
      end
  end.

Definition file_lines (f : list ascii) : list (list ascii) :=
  fgets_lines (length f) f.

(** The record that a line holds: the track made of its first four
    fields, when the first one is not empty. *)
Definition line_track (buf : list ascii) : option Track :=
  match csv_read_field (Some (line_of buf)) with
  | Some (f1, p1) =>
      match csv_read_field p1 with
      | Some (f2, p2) =>
          match csv_read_field p2 with
          | Some (f3, p3) =>
              match csv_read_field p3 with
              | Some (f4, _) =>
                  match f1 with
                  | [] => None
                  | _ :: _ => Some (mkTrack f1 f2 f3 (atoi f4))
                  end
              | None => None
              end
          | None => None
          end
      | None => None
      end
  | None => None
  end.

(** The part of a text that holds its records: the whole text, or what
    follows the first line when that line is taken for a header. *)
Definition data_of (text : list ascii) : list ascii :=
  match fgets MAX_LINE text with
  | None => []
  | Some (buf, rest) =>
      if negb (nonnull (strstr (cut_at NUL buf) (lit "title")))
         || negb (nonnull (strstr (cut_at NUL buf) (lit "artist")))
      then text else rest
  end.

(** The records of a text, in the order of its lines. *)
Definition decoded_tracks (text : list ascii) : list Track :=
  omap line_track (file_lines (data_of text)).

(** ** Sample data *)

(** A field of 1024 bytes that holds a comma. *)
Definition long_field : list ascii := COMMA :: replicate 1023 "a"%char.

Definition three_tracks : Playlist :=
  mkPlaylist [mkTrack (lit "A") (lit "x") (lit "p") 1;
              mkTrack (lit "B") (lit "y") (lit "q") 2;
              mkTrack (lit "C") (lit "z") (lit "r") 3] 32.

(** The scenario of the specification: two tracks added to an empty
    playlist. *)
Definition two_songs : Playlist :=
  add_track
    (add_track init_playlist (lit "Song A") (lit "Artist X") (lit "Album 1") 125)
    (lit "Song B") (lit "Artist Y") (lit "Album 2") 340.

(** A playlist whose only track has an empty title. *)
Definition untitled : Playlist :=
  mkPlaylist [mkTrack [] (lit "Artist X") (lit "Album 1") 125] 32.

(** A playlist whose only track has a title of 1023 bytes. *)
Definition long_title : Playlist :=
  mkPlaylist [mkTrack (replicate 1023 "a"%char) (lit "x") (lit "y") 7] 32.

(** The conditions under which a saved track is loaded back: C strings
    and an [int], no newline in a field, a record that fits the line
    buffer, and a title that is not empty. *)
Definition loadable (t : Track) : Prop :=
  track_ok t ∧ no_newline t ∧ fits_line t ∧ title t ≠ [].

(** A first line of 1035 bytes with the two header words at its end. *)
Definition long_first_line : list ascii :=
  replicate 1023 "a"%char ++ lit "title,artist".

(** Two tracks of durations [INT_MAX] and -2, as the [add] command
    stores them from the inputs 2147483647 and -2. *)
Definition extremes : Playlist :=
  add_track
    (add_track init_playlist (lit "Long") (lit "x") (lit "y")
       (atoi (lit "2147483647")))
    (lit "Odd") (lit "x") (lit "y") (atoi (lit "-2")).

(** ** Reading the user's input *)

(** The second loop of [trim]: the length that is left when the white
    space at the end of the [len] bytes of [s] is cut off. *)
Fixpoint trim_end (s : list ascii) (len : nat) : nat :=
  match len with
  | O => O
  | S l =>
      match s !! l with
      | Some c => if isspace c then trim_end s l else len
      | None => len
      end
  end.

(** [trim(s)]: the text is moved over its leading white space, then cut
    before its trailing white space. *)
Definition trim (s : list ascii) : list ascii :=
  let s := skip_spaces s in
  take (trim_end s (length s)) s.

(** [if (len && buf[len-1] == NL) buf[len-1] = 0;] *)
Definition strip_newline (s : list ascii) : list ascii :=
  match length s, s !! (length s - 1)%nat with
  | S _, Some c => if Ascii.eqb c NL then take (length s - 1) s else s
  | _, _ => s
  end.

(** [read_input_line(prompt)] on the unread bytes of [stdin]: the line
    returned ([None] is NULL, at end of input) and the bytes left. *)
Definition read_input_line (stdin : list ascii)
  : option (list ascii) * list ascii :=
  match fgets MAX_LINE stdin with
  | None => (None, stdin)
  | Some (buf, rest) => (Some (trim (strip_newline (cut_at NUL buf))), rest)
  end.

(** The pointer [p ? p : d]. *)
Definition or_else (p : option (list ascii)) (d : list ascii) : list ascii :=
  match p with Some s => s | None => d end.

(** The [add] command of [main]: the playlist afterwards, and the bytes
    of [stdin] that are left. *)
Definition cmd_add (pl : Playlist) (stdin : list ascii)
  : Playlist * list ascii :=
  let '(title, stdin) := read_input_line stdin in
  let '(artist, stdin) := read_input_line stdin in
  let '(album, stdin) := read_input_line stdin in
  let '(dur_s, stdin) := read_input_line stdin in
  let dur := atoi (or_else dur_s (lit "0")) in
  match title with
  | None | Some [] => (pl, stdin)
  | Some (c :: t) =>
      (add_track pl (c :: t) (or_else artist (lit "Unknown"))
         (or_else album (lit "Unknown")) dur, stdin)
  end.

(** ** Indexes typed by the user *)

Fixpoint skip_digits (s : list ascii) : list ascii :=
  match s with
  | c :: s' => if isdigit c then skip_digits s' else s
  | [] => []
  end.

(** [strtol(s, &end, 10)]: the value, and the text at [end].  Without
    a digit to convert, [end] is [s] itself and the value is 0. *)
Definition strtol_end (s : list ascii) : Z * list ascii :=
  let s1 := skip_spaces s in
  let '(neg, s2) :=
    match s1 with
    | c :: s' =>
        if Ascii.eqb c "-" then (true, s')
        else if Ascii.eqb c "+" then (false, s')
        else (false, s1)
    | [] => (false, [])
    end in
  match s2 with
  | d :: _ =>
      if isdigit d then
        let v := parse_digits s2 0 in
        let v := if neg then - v else v in
        (Z.max LONG_MIN (Z.min LONG_MAX v), skip_digits s2)
      else (0, s)
  | [] => (0, s)
  end.

(** [parse_index_token(tok, max)]; [None] is a NULL token. *)
Definition parse_index_token (tok : option (list ascii)) (max : Z) : Z :=
  match tok with
  | None => -1
  | Some t =>
      let '(v, e) := strtol_end t in
      if negb (match e with [] => true | _ :: _ => false end)
         || (v <? 1) || (max <? v)
      then -1
      else wrap_int v - 1
  end.

(** The [remove] command of [main] on the token [n] that follows the
    command word. *)
Definition cmd_remove (pl : Playlist) (n : option (list ascii)) : Playlist :=
  let idx := parse_index_token n (wrap_int (Z.of_nat (size pl))) in
  if idx <? 0 then pl else remove_track_at pl (Z.to_nat idx).

(** The [clear] command of [main]. *)
Definition cmd_clear (pl : Playlist) : Playlist := mkPlaylist [] (cap pl).

(** ** Playing a track *)

(** [demo_seconds] of [play_track]. *)
Definition demo_seconds (t : Track) : Z :=
  if duration t <? 6 then duration t else 5.

(** The number of seconds that [play_track] hands to [sleep], whose
    parameter is an [unsigned int]. *)
Definition sleep_seconds (t : Track) : Z := demo_seconds t mod 2 ^ 32.

(** ** Sorting by title and by artist *)

(** The byte, as an [unsigned char]. *)
Definition code (c : ascii) : Z := Z.of_N (N_of_ascii c).

(** [strcasecmp(a, b)] as the C library computes it: the difference of
    the first two lower-cased bytes that differ, the terminator being
    byte 0. *)
Fixpoint strcasecmp (a b : list ascii) : Z :=
  match a, b with
  | [], [] => 0
  | [], d :: _ => 0 - code (tolower d)
  | c :: _, [] => code (tolower c) - 0
  | c :: a', d :: b' =>
      if Ascii.eqb (tolower c) (tolower d) then strcasecmp a' b'
      else code (tolower c) - code (tolower d)
  end.

Definition cmp_title (a b : Track) : Z := strcasecmp (title a) (title b).

Definition cmp_artist (a b : Track) : Z :=
  let r := strcasecmp (artist a) (artist b) in
  if negb (r =? 0) then r else strcasecmp (title a) (title b).

(** The [sort title] and [sort artist] commands of [main]. *)
Definition sort_by_title (pl : Playlist) : Playlist :=
  mkPlaylist (qsort cmp_title (items pl)) (cap pl).

Definition sort_by_artist (pl : Playlist) : Playlist :=
  mkPlaylist (qsort cmp_artist (items pl)) (cap pl).

(** ** The notions of the further properties *)

(** Lexicographic order on byte codes. *)
Inductive lex_le : list Z → list Z → Prop :=
| lex_le_nil l : lex_le [] l
| lex_le_lt x y l1 l2 : x < y → lex_le (x :: l1) (y :: l2)
| lex_le_eq x l1 l2 : lex_le l1 l2 → lex_le (x :: l1) (x :: l2).

(** The key of a text in a case-insensitive order: its bytes with the
    ASCII capitals lowered. *)
Definition fold_case (s : list ascii) : list Z := map (λ c, code (tolower c)) s.

(** [a] comes no later than [b] when letter case is ignored. *)
Definition ci_le (a b : list ascii) : Prop := lex_le (fold_case a) (fold_case b).

(** A track with the properties that the loader and the [add] command
    give to every track: C strings without a newline, a title that is
    not empty, a duration that is an [int]. *)
Definition clean_track (t : Track) : Prop :=
  track_ok t ∧ no_newline t ∧ title t ≠ [].

(** White space only. *)
Definition blank (s : list ascii) : Prop := Forall (λ c, isspace c = true) s.

(** The text fields are shorter than the line buffer. *)
Definition short_fields (t : Track) : Prop :=
  (length (title t) < MAX_LINE)%nat ∧ (length (artist t) < MAX_LINE)%nat
  ∧ (length (album t) < MAX_LINE)%nat.

(** What a field that was read from a line [s] is: bytes of [s], and
    no more of them than [s] has. *)
Definition drawn_from (s fld : list ascii) : Prop :=
  fld ⊆ s ∧ (length fld ≤ length s)%nat.

(** The pointer of [csv_read_field] points into the line [s]. *)
Definition points_into (s : list ascii) (sp : option (list ascii)) : Prop :=
  ∀ s', sp = Some s' → drawn_from s s'.

(** A line as the user types it in answer to a prompt of [add], when
    [read_input_line] returns it as it is: a text without NUL or
    newline, without white space at its ends, that fits the buffer with
    its newline. *)
Definition typed_line (s : list ascii) : Prop :=
  (NUL ∉ s) ∧ (NL ∉ s)
  ∧ (∀ c, head s = Some c → isspace c = false)
  ∧ (∀ c, last s = Some c → isspace c = false)
  ∧ (length s + 1 < MAX_LINE)%nat.

(** The text ends with a newline. *)
Definition ends_line (f : list ascii) : Prop := ∃ g, f = g ++ [NL].

(** What follows a closing quote up to the next comma: no comma, and no
    quote at once. *)
Definition after_quote (junk : list ascii) : Prop :=
  (COMMA ∉ junk) ∧ head junk ≠ Some DQUOTE.

(** The token [t] names the number [n]: white space, an optional plus
    sign, then decimal digits up to the end, of value [n]. *)
Definition names_number (t : list ascii) (n : Z) : Prop :=
  ∃ ws sg ds, t = ws ++ sg ++ ds ∧ blank ws
              ∧ (sg = [] ∨ sg = ["+"%char])
              ∧ ds ≠ [] ∧ Forall (λ c, isdigit c = true) ds
              ∧ parse_digits ds 0 = n.

(** ** Further sample data *)

(** A text without a header line: a full record, a record without a
    title, a record of two fields. *)
Definition mixed_text : list ascii :=
  lit "One,a,b,7" ++ [NL] ++ lit ",skipped,x,1" ++ [NL] ++ lit "Two,c" ++ [NL].

Definition mixed_case : Playlist :=
  mkPlaylist [mkTrack (lit "banana") (lit "Zed") (lit "p") 1;
              mkTrack (lit "Apple") (lit "amy") (lit "q") 2;
              mkTrack (lit "cherry") (lit "Amy") (lit "r") 3] 32.

(** * Proofs *)

(** ** The playlist array *)

Lemma init_playlist_ok : playlist_ok init_playlist.
Proof. unfold playlist_ok, init_playlist, INITIAL_CAP, size; simpl; lia. Qed.

Lemma ensure_capacity_items pl : items (ensure_capacity pl) = items pl.
Proof. unfold ensure_capacity. by destruct (_ <? _)%nat. Qed.

(** After [ensure_capacity] the slot [items[size]] that [add_track]
    writes lies inside the array. *)
Lemma ensure_capacity_room pl :
  playlist_ok pl → (size (ensure_capacity pl) < cap (ensure_capacity pl))%nat.
Proof.
  intros [Hpos Hle]. unfold ensure_capacity.
  destruct (Nat.ltb_spec (size pl) (cap pl)); [done|].
  unfold size in *; simpl; lia.
Qed.

Lemma add_track_ok pl ti ar al d :
  playlist_ok pl → playlist_ok (add_track pl ti ar al d).
Proof.
  intros Hok. pose proof (ensure_capacity_room pl Hok) as Hroom.
  unfold playlist_ok, add_track, size in *; simpl.
  rewrite length_app; simpl. lia.
Qed.

Lemma add_track_items pl ti ar al d :
  items (add_track pl ti ar al d) = items pl ++ [mkTrack ti ar al d].
Proof. unfold add_track; simpl. by rewrite ensure_capacity_items. Qed.

Lemma shift_left_length a i n : length (shift_left a i n) = length a.
Proof.
  revert a i; induction n as [|n IH]; intros a i; simpl; [done|].
  destruct (a !! i); [|done]. by rewrite IH, length_insert.
Qed.

(** What the shifting loop leaves in every slot. *)
Lemma shift_left_lookup a i n j :
  (1 ≤ i)%nat → (i + n ≤ length a)%nat →
  shift_left a i n !! j =
    if decide (i - 1 ≤ j < i - 1 + n)%nat then a !! S j else a !! j.
Proof.
  revert a i; induction n as [|n IH]; intros a i Hi Hlen; simpl.
  - case_decide; [lia|done].
  - destruct (a !! i) as [t|] eqn:Hai.
    2:{ apply lookup_ge_None in Hai. lia. }
    rewrite IH by (rewrite ?length_insert; lia).
    replace (S i - 1)%nat with i by lia.
    destruct (decide (j = i - 1)%nat) as [->|Hne].
    + rewrite (decide_False (P := (i ≤ i - 1 < i + n)%nat)) by lia.
      rewrite (decide_True (P := (i - 1 ≤ i - 1 < i - 1 + S n)%nat)) by lia.
      rewrite list_lookup_insert_eq by lia.
      by replace (S (i - 1)) with i by lia.
    + repeat case_decide; try lia;
        by rewrite list_lookup_insert_ne by lia.
Qed.

Lemma remove_track_at_items pl idx :
  (idx < size pl)%nat →
  items (remove_track_at pl idx) = take idx (items pl) ++ drop (S idx) (items pl).
Proof.
  intros Hlt. unfold remove_track_at.
  destruct (Nat.leb_spec (size pl) idx); [lia|]. simpl.
  unfold size in *. apply list_eq; intros j.
  destruct (decide (j < length (items pl) - 1)%nat) as [Hj|Hj].
  - rewrite lookup_take_lt by lia.
    rewrite shift_left_lookup by lia.
    replace (idx + 1 - 1)%nat with idx by lia.
    destruct (decide (j < idx)%nat).
    + rewrite decide_False by lia.
      rewrite lookup_app_l by (rewrite length_take; lia).
      by rewrite lookup_take_lt by lia.
    + rewrite decide_True by lia.
      rewrite lookup_app_r by (rewrite length_take; lia).
      rewrite length_take, lookup_drop. f_equal. lia.
  - rewrite lookup_take_ge by lia.
    symmetry. apply lookup_ge_None.
    rewrite length_app, length_take, length_drop. lia.
Qed.

(** C3. [remove_track_at] at an index [idx] below the size [n] leaves
    [n - 1] tracks: those before [idx] stay where they were, those after
    it move one slot to the left, so the relative order of the remaining
    tracks is kept.  At every other index ([idx] is a [size_t], so those
    are the indexes [idx >= n]) the playlist is unchanged. *)
Theorem remove_track_at_spec (pl : Playlist) (idx : nat) :
  ((idx < size pl)%nat →
     size (remove_track_at pl idx) = (size pl - 1)%nat
     ∧ items (remove_track_at pl idx)
       = take idx (items pl) ++ drop (S idx) (items pl)
     ∧ (∀ j, (j < idx)%nat →
          items (remove_track_at pl idx) !! j = items pl !! j)
     ∧ (∀ j, (idx ≤ j)%nat →
          items (remove_track_at pl idx) !! j = items pl !! S j))
  ∧ ((size pl ≤ idx)%nat → remove_track_at pl idx = pl).
Proof.
  split.
  - intros Hlt. pose proof (remove_track_at_items pl idx Hlt) as Heq.
    unfold size in *. rewrite Heq.
    split; [|split; [done|split]].
    + rewrite length_app, length_take, length_drop. lia.
    + intros j Hj. rewrite lookup_app_l by (rewrite length_take; lia).
      by rewrite lookup_take_lt by lia.
    + intros j Hj. rewrite lookup_app_r by (rewrite length_take; lia).
      rewrite length_take, lookup_drop. f_equal. lia.
  - intros Hge. unfold remove_track_at.
    by destruct (Nat.leb_spec (size pl) idx); [|lia].
Qed.

Lemma remove_track_at_spec_witness :
  items (remove_track_at three_tracks 1)
    = [mkTrack (lit "A") (lit "x") (lit "p") 1;
       mkTrack (lit "C") (lit "z") (lit "r") 3]
  ∧ remove_track_at three_tracks 3 = three_tracks.
Proof.
  destruct (remove_track_at_spec three_tracks 1) as [Hin _].
  destruct (remove_track_at_spec three_tracks 3) as [_ Hout].
  split.
  - destruct Hin as (_ & Heq & _); [vm_compute; lia|]. exact Heq.
  - apply Hout. vm_compute. lia.
Defined.

(** ** Substring search *)

Lemma starts_with_spec h n :
  starts_with h n = true ↔ ∃ post, h = n ++ post.
Proof.
  revert h; induction n as [|c n IH]; intros h.
  - destruct h; simpl; (split; [intros _; by eexists|done]).
  - destruct h as [|d h]; simpl.
    + split; [done|intros [post Hp]; discriminate].
    + rewrite andb_true_iff, Ascii.eqb_eq, IH. split.
      * intros [-> [post ->]]. by exists post.
      * intros [post Hp]. injection Hp as -> ->. eauto.
Qed.

Lemma strstr_spec h n : nonnull (strstr h n) = true ↔ is_substring n h.
Proof.
  unfold is_substring. induction h as [|c h IH].
  - cbn [strstr]. destruct (starts_with [] n) eqn:Hs; simpl.
    + apply starts_with_spec in Hs as [post Hp].
      split; [intros _; by exists [], post|done].
    + split; [done|]. intros (pre & post & Hp).
      destruct pre; [|discriminate]. simpl in Hp.
      assert (starts_with [] n = true) by (apply starts_with_spec; eauto).
      congruence.
  - cbn [strstr]. destruct (starts_with (c :: h) n) eqn:Hs.
    + apply starts_with_spec in Hs as [post Hp].
      split; [intros _; by exists [], post|done].
    + rewrite IH. split.
      * intros (pre & post & ->). by exists (c :: pre), post.
      * intros (pre & post & Hp). destruct pre as [|d pre]; simpl in Hp.
        -- assert (starts_with (c :: h) n = true)
             by (apply starts_with_spec; eauto).
           congruence.
        -- injection Hp as -> ->. eauto.
Qed.

Lemma is_substring_nil h : is_substring [] h.
Proof. by exists [], h. Qed.

(** ** Search *)

Lemma track_matches_spec term t :
  track_matches (str_tolower_copy term) t = true ↔ track_has term t.
Proof.
  unfold track_matches, track_has, ci_substring, str_tolower_copy.
  rewrite !orb_true_iff, !strstr_spec. tauto.
Qed.

Lemma search_loop_hits low a i j t :
  (j, t) ∈ search_hits (search_loop low a i) ↔
  ∃ k, j = (i + k)%nat ∧ a !! k = Some t ∧ track_matches low t = true.
Proof.
  unfold search_hits. revert i; induction a as [|x a IH]; intros i; simpl.
  - split; [intros H; by apply elem_of_nil in H|intros (k & _ & H & _); done].
  - assert (Hrec : (j, t) ∈ omap (λ o, match o with
                                       | PrintTrack i0 t0 => Some (i0, t0)
                                       | NoMatches _ => None
                                       end) (search_loop low a (S i))
            ↔ ∃ k, j = (i + S k)%nat ∧ a !! k = Some t
                   ∧ track_matches low t = true).
    { rewrite IH. split; intros (k & -> & H); exists k; (split; [lia|done]). }
    destruct (track_matches low x) eqn:Hx; simpl.
    + rewrite elem_of_cons, Hrec. split.
      * intros [Heq|(k & -> & Hk & Hm)].
        -- injection Heq as -> ->. exists 0%nat. split; [lia|done].
        -- by exists (S k).
      * intros ([|k] & -> & Hk & Hm); simpl in Hk.
        -- left. injection Hk as ->. f_equal. lia.
        -- right. by exists k.
    + rewrite Hrec. split.
      * intros (k & -> & Hk & Hm). by exists (S k).
      * intros ([|k] & -> & Hk & Hm); simpl in Hk; [congruence|by exists k].
Qed.

Lemma search_loop_positions low a i :
  Forall (λ p, (i ≤ p.1)%nat) (search_hits (search_loop low a i))
  ∧ StronglySorted lt ((search_hits (search_loop low a i)).*1).
Proof.
  unfold search_hits. revert i; induction a as [|x a IH]; intros i; simpl.
  - split; constructor.
  - destruct (IH (S i)) as [Hall Hsorted].
    assert (Hall' : Forall (λ p : nat * Track, (i ≤ p.1)%nat)
              (omap (λ o, match o with
                          | PrintTrack i0 t0 => Some (i0, t0)
                          | NoMatches _ => None
                          end) (search_loop low a (S i)))).
    { eapply Forall_impl; [exact Hall|]. simpl. intros; lia. }
    destruct (track_matches low x); simpl; [|done].
    split; [constructor; [simpl; lia|done]|].
    constructor; [done|].
    apply Forall_fmap. eapply Forall_impl; [exact Hall|]. simpl. intros; lia.
Qed.

Lemma search_playlist_hits pl term :
  search_hits (search_playlist pl term)
  = search_hits (search_loop (str_tolower_copy term) (items pl) 0).
Proof.
  unfold search_playlist.
  by destruct (search_loop (str_tolower_copy term) (items pl) 0).
Qed.

(** C4. [search_playlist] prints exactly the tracks, each with its
    position and once, in which the term occurs as a case-insensitive
    substring of the title, the artist or the album.  When no track
    matches, its whole output is the no-match message: a result without
    tracks, returned like any other. *)
Theorem search_playlist_spec (pl : Playlist) (term : list ascii) :
  (∀ i t, (i, t) ∈ search_hits (search_playlist pl term)
          ↔ items pl !! i = Some t ∧ track_has term t)
  ∧ StronglySorted lt ((search_hits (search_playlist pl term)).*1)
  ∧ ((∀ t, t ∈ items pl → ¬ track_has term t) →
       search_playlist pl term = [NoMatches term]).
Proof.
  rewrite search_playlist_hits. split; [|split].
  - intros i t. rewrite search_loop_hits. split.
    + intros (k & -> & Hk & Hm). simpl.
      split; [done|]. by apply track_matches_spec.
    + intros [Hk Hm]. exists i. split; [done|].
      split; [done|]. by apply track_matches_spec.
  - apply search_loop_positions.
  - intros Hnone. unfold search_playlist.
    destruct (search_loop (str_tolower_copy term) (items pl) 0)
      as [|o out] eqn:Hout; [done|].
    exfalso.
    assert (Hin : ∀ a i, o ∈ search_loop (str_tolower_copy term) a i →
              ∃ t, t ∈ a ∧ track_matches (str_tolower_copy term) t = true).
    { clear. induction a as [|x a IH]; intros i; simpl.
      - intros H; by apply elem_of_nil in H.
      - destruct (track_matches _ x) eqn:Hx.
        + rewrite elem_of_cons. intros [->|H].
          * exists x. split; [left|done].
          * destruct (IH _ H) as (t & Ht & Hm). exists t. split; [by right|done].
        + intros H. destruct (IH _ H) as (t & Ht & Hm).
          exists t. split; [by right|done]. }
    destruct (Hin (items pl) 0%nat) as (t & Ht & Hm).
    { rewrite Hout. left. }
    apply (Hnone t Ht). by apply track_matches_spec.
Qed.

Lemma search_playlist_spec_witness :
  search_playlist three_tracks (lit "zzz") = [NoMatches (lit "zzz")].
Proof.
  apply (search_playlist_spec three_tracks (lit "zzz")).
  intros t Ht Hhas. apply track_matches_spec in Hhas.
  unfold three_tracks in Ht; simpl in Ht.
  repeat (apply elem_of_cons in Ht as [->|Ht]; [vm_compute in Hhas; discriminate|]).
  by apply elem_of_nil in Ht.
Defined.

Lemma search_loop_empty_term a i :
  search_hits (search_loop [] a i) = imap (λ k t, ((i + k)%nat, t)) a.
Proof.
  unfold search_hits. revert i; induction a as [|x a IH]; intros i; simpl; [done|].
  assert (Hm : track_matches [] x = true).
  { unfold track_matches.
    by rewrite (proj2 (strstr_spec (str_tolower_copy (title x)) [])
                  (is_substring_nil _)). }
  rewrite Hm. simpl. rewrite IH. f_equal; [f_equal; lia|].
  apply imap_ext. intros k y _. simpl. f_equal. lia.
Qed.

(** C10. A search for the empty string returns every track of the
    playlist, each at its position, in order. *)
Theorem search_playlist_empty_term (pl : Playlist) :
  search_hits (search_playlist pl []) = imap (λ i t, (i, t)) (items pl).
Proof.
  rewrite search_playlist_hits. simpl. apply search_loop_empty_term.
Qed.

(** ** Writing and reading one field *)

Lemma strchr_spec s c : nonnull (strchr s c) = true ↔ c ∈ s.
Proof.
  induction s as [|d s IH]; simpl.
  - split; [done|intros H; by apply elem_of_nil in H].
  - rewrite elem_of_cons. destruct (Ascii.eqb_spec d c) as [->|Hne]; simpl.
    + split; [by left|done].
    + rewrite IH. split; [by right|]. intros [->|H]; [done|exact H].
Qed.

Lemma csv_escape_field_quoted s :
  needs_quotes s → csv_escape_field s = DQUOTE :: escape_body s ++ [DQUOTE].
Proof.
  unfold needs_quotes, csv_escape_field. intros H.
  destruct (nonnull (strchr s COMMA) || nonnull (strchr s DQUOTE)) eqn:Hb; [done|].
  apply orb_false_iff in Hb as [Hc Hq].
  destruct H as [H|H]; apply strchr_spec in H; congruence.
Qed.

Lemma csv_escape_field_plain s :
  ¬ needs_quotes s → csv_escape_field s = s.
Proof.
  unfold needs_quotes, csv_escape_field. intros H.
  destruct (nonnull (strchr s COMMA) || nonnull (strchr s DQUOTE)) eqn:Hb; [|done].
  exfalso. apply H. apply orb_true_iff in Hb.
  by rewrite <- !strchr_spec.
Qed.

Lemma escape_body_doubled s : escape_body s = doubled_quotes s.
Proof.
  unfold doubled_quotes. induction s as [|c s IH]; simpl; [done|].
  rewrite IH.
  destruct (Ascii.eqb_spec c DQUOTE), (ascii_dec c DQUOTE); done.
Qed.

Lemma skip_to_comma_field_end rest :
  field_end rest → skip_to_comma rest = rest.
Proof. by intros [->|[r ->]]. Qed.

(** The quoted loop reads back what [escape_body] wrote, up to the
    closing quote, as long as the text fits [tmp] with its terminator. *)
Lemma read_quoted_escape s rest ti :
  (ti + length s < MAX_LINE)%nat → field_end rest →
  ∃ s1, read_quoted (escape_body s ++ DQUOTE :: rest) ti = Some (s, s1)
        ∧ skip_to_comma s1 = rest.
Proof.
  intros Hlen Hrest. revert ti Hlen.
  induction s as [|c s IH]; intros ti Hlen.
  - exists rest. split; [|by apply skip_to_comma_field_end].
    simpl. destruct Hrest as [->|[r ->]]; done.
  - simpl in Hlen. cbn [escape_body].
    destruct (Ascii.eqb_spec c DQUOTE) as [->|Hne].
    + destruct (IH (S ti)) as (s1 & Hread & Hskip); [lia|].
      exists s1. split; [|done].
      cbn [read_quoted app]. change (Ascii.eqb DQUOTE DQUOTE) with true.
      cbv iota. destruct (Nat.leb_spec MAX_LINE ti); [lia|].
      by rewrite Hread.
    + cbn [read_quoted app].
      destruct (Ascii.eqb_spec c DQUOTE) as [|_]; [done|].
      destruct (Nat.leb_spec MAX_LINE ti); [lia|].
      destruct (Nat.leb_spec MAX_LINE (S ti + 1)).
      * assert (s = []) as -> by (destruct s; [done|simpl in Hlen; lia]).
        exists (DQUOTE :: rest). split; [done|].
        simpl. by apply skip_to_comma_field_end.
      * destruct (IH (S ti)) as (s1 & Hread & Hskip); [lia|].
        exists s1. by rewrite Hread.
Qed.

Lemma read_plain_literal s rest ti :
  COMMA ∉ s → (ti + length s < MAX_LINE)%nat → field_end rest →
  read_plain (s ++ rest) ti = (s, rest).
Proof.
  intros Hc Hlen Hrest. revert ti Hlen.
  induction s as [|c s IH]; intros ti Hlen.
  - simpl. destruct Hrest as [->|[r ->]]; done.
  - simpl in Hlen. apply not_elem_of_cons in Hc as [Hne Hc].
    cbn [read_plain app].
    destruct (Ascii.eqb_spec c COMMA) as [|_]; [done|].
    destruct (Nat.leb_spec MAX_LINE (S ti + 1)).
    + assert (s = []) as -> by (destruct s; [done|simpl in Hlen; lia]).
      done.
    + by rewrite IH by (done || lia).
Qed.

(** Reading a field that [csv_escape_field] wrote, followed by the end
    of the line or by a comma, returns the text of the field and leaves
    the pointer after the comma. *)
Lemma csv_read_field_escaped s rest :
  (length s < MAX_LINE)%nat → field_end rest →
  csv_read_field (Some (csv_escape_field s ++ rest))
  = Some (s, or_null (skip_comma rest)).
Proof.
  intros Hlen Hrest. unfold csv_escape_field.
  destruct (nonnull (strchr s COMMA) || nonnull (strchr s DQUOTE)) eqn:Hb.
  - cbn [app csv_read_field].
    change (Ascii.eqb DQUOTE DQUOTE) with true. cbv iota.
    rewrite <- app_assoc. cbn [app].
    destruct (read_quoted_escape s rest 0) as (s1 & -> & ->); [lia|done|].
    by destruct (Nat.leb_spec MAX_LINE (length s)); [lia|].
  - apply orb_false_iff in Hb as [Hc Hq].
    assert (COMMA ∉ s) by (rewrite <- strchr_spec; congruence).
    assert (DQUOTE ∉ s) by (rewrite <- strchr_spec; congruence).
    destruct s as [|c s].
    + destruct Hrest as [->|[r ->]]; done.
    + cbn [app csv_read_field].
      destruct (Ascii.eqb_spec c DQUOTE) as [->|_].
      { exfalso. apply H0. left. }
      change (c :: s ++ rest) with ((c :: s) ++ rest).
      by rewrite read_plain_literal by (done || simpl in *; lia).
Qed.

(** C2, within the size of the field buffer.  A field that holds a
    comma or a double quote is written between double quotes with every
    double quote of it doubled; any other field is written as it is.
    Reading the quoted field with [csv_read_field] returns the original
    text, quotes included, when the text fits the buffer [tmp] with its
    terminator (at most [MAX_LINE - 1] bytes). *)
Theorem csv_field_roundtrip (s : list ascii) :
  (needs_quotes s →
     csv_escape_field s = [DQUOTE] ++ doubled_quotes s ++ [DQUOTE])
  ∧ (¬ needs_quotes s → csv_escape_field s = s)
  ∧ (needs_quotes s → (length s < MAX_LINE)%nat →
       csv_read_field (Some (csv_escape_field s)) = Some (s, None)).
Proof.
  split; [|split].
  - intros H. rewrite csv_escape_field_quoted by done.
    by rewrite escape_body_doubled.
  - apply csv_escape_field_plain.
  - intros _ Hlen.
    rewrite <- (app_nil_r (csv_escape_field s)).
    by rewrite csv_read_field_escaped by (done || by left).
Qed.

Lemma csv_field_roundtrip_witness :
  let s := lit "Say " ++ [DQUOTE] ++ lit "Hi" ++ [DQUOTE] ++ lit ", Bye" in
  csv_escape_field s
    = [DQUOTE] ++ lit "Say " ++ [DQUOTE; DQUOTE] ++ lit "Hi"
      ++ [DQUOTE; DQUOTE] ++ lit ", Bye" ++ [DQUOTE]
  ∧ csv_escape_field (lit "Song A") = lit "Song A"
  ∧ csv_read_field (Some (csv_escape_field s)) = Some (s, None).
Proof.
  intros s.
  assert (Hq : needs_quotes s).
  { left. apply strchr_spec. reflexivity. }
  destruct (csv_field_roundtrip s) as (Hquoted & _ & Hread).
  destruct (csv_field_roundtrip (lit "Song A")) as (_ & Hplain & _).
  split; [|split].
  - rewrite (Hquoted Hq). reflexivity.
  - apply Hplain. intros [H|H]; apply strchr_spec in H; discriminate.
  - apply (Hread Hq). vm_compute. lia.
Defined.

(** C2 as stated fails beyond the buffer: the 1024-byte field
    [long_field] holds a comma, and is read back cut to 1023 bytes. *)
Lemma csv_field_roundtrip_long_field :
  needs_quotes long_field
  ∧ csv_read_field (Some (csv_escape_field long_field))
    = Some (take 1023 long_field, None)
  ∧ take 1023 long_field ≠ long_field.
Proof.
  split; [left; left|split].
  - vm_compute. reflexivity.
  - intros H. apply (f_equal length) in H. vm_compute in H. discriminate.
Qed.

(** ** Printing and parsing the duration *)

Lemma wrap_int_id z : int_range z → wrap_int z = z.
Proof.
  unfold int_range, INT_MIN, INT_MAX, wrap_int. intros H.
  rewrite Z.mod_small; lia.
Qed.

Lemma digit_char_spec d :
  0 <= d <= 9 →
  isdigit (digit_char d) = true ∧ digit_val (digit_char d) = d.
Proof.
  intros H.
  assert (d = 0 ∨ d = 1 ∨ d = 2 ∨ d = 3 ∨ d = 4 ∨ d = 5 ∨ d = 6
          ∨ d = 7 ∨ d = 8 ∨ d = 9) as Hd by lia.
  repeat (destruct Hd as [->|Hd]; [by vm_compute|]). subst. by vm_compute.
Qed.

Lemma isdigit_range c :
  isdigit c = true → (48 <= N_of_ascii c <= 57)%N.
Proof.
  unfold isdigit. rewrite andb_true_iff, !N.leb_le. tauto.
Qed.

Lemma isdigit_not_space c : isdigit c = true → isspace c = false.
Proof.
  intros H%isdigit_range. unfold isspace.
  apply orb_false_iff. split.
  - apply N.eqb_neq. lia.
  - apply andb_false_iff. right. apply N.leb_gt. lia.
Qed.

Lemma isdigit_neq c d :
  isdigit c = true → isdigit d = false → Ascii.eqb c d = false.
Proof.
  intros Hc Hd. destruct (Ascii.eqb_spec c d) as [->|]; congruence.
Qed.

(** Parsing the digits that [digits_of] produced gives the number back. *)
Lemma parse_digits_of fuel n acc :
  0 <= n < 2 ^ Z.of_nat fuel → (0 < fuel)%nat →
  parse_digits (digits_of fuel n acc) 0 = parse_digits acc n.
Proof.
  revert n acc. induction fuel as [|fuel IH]; intros n acc Hn Hf; [lia|].
  cbn [digits_of].
  destruct (digit_char_spec (n mod 10)) as [Hd Hv].
  { pose proof (Z.mod_pos_bound n 10). lia. }
  assert (Hstep : parse_digits (digit_char (n mod 10) :: acc) (n / 10)
                  = parse_digits acc n).
  { cbn [parse_digits]. rewrite Hd, Hv. f_equal.
    pose proof (Z.div_mod n 10). lia. }
  destruct (Z.eqb_spec (n / 10) 0) as [Hz|Hnz].
  - rewrite <- Hstep, Hz. cbn [parse_digits]. by rewrite Hd, Hv.
  - rewrite Nat2Z.inj_succ, Z.pow_succ_r in Hn by lia.
    assert (0 < n / 10) by (pose proof (Z.div_pos n 10); lia).
    assert (n / 10 < 2 ^ Z.of_nat fuel).
    { apply Z.div_lt_upper_bound; lia. }
    destruct fuel as [|fuel']; [simpl in *; lia|].
    rewrite IH by lia. exact Hstep.
Qed.

Lemma digits_of_all_digits fuel n acc :
  0 <= n → Forall (λ c, isdigit c = true) acc →
  Forall (λ c, isdigit c = true) (digits_of fuel n acc).
Proof.
  revert n acc. induction fuel as [|fuel IH]; intros n acc Hn Hacc; [done|].
  cbn [digits_of].
  destruct (digit_char_spec (n mod 10)) as [Hd _].
  { pose proof (Z.mod_pos_bound n 10). lia. }
  destruct (n / 10 =? 0).
  - by constructor.
  - apply IH; [apply Z.div_pos; lia|by constructor].
Qed.

Lemma digits_of_cons fuel n acc :
  0 <= n → ∃ d l, digits_of (S fuel) n acc = d :: l.
Proof.
  revert n acc. induction fuel as [|fuel IH]; intros n acc Hn.
  - cbn [digits_of]. destruct (n / 10 =? 0); eauto.
  - change (digits_of (S (S fuel)) n acc)
      with (if n / 10 =? 0 then digit_char (n mod 10) :: acc
            else digits_of (S fuel) (n / 10) (digit_char (n mod 10) :: acc)).
    destruct (n / 10 =? 0); [eauto|].
    apply IH. apply Z.div_pos; lia.
Qed.

Lemma log2_fuel n : 0 <= n → n < 2 ^ Z.of_nat (S (Z.to_nat (Z.log2 n))).
Proof.
  intros Hn. rewrite Nat2Z.inj_succ, Z2Nat.id by apply Z.log2_nonneg.
  destruct (Z.eq_dec n 0) as [->|Hnz]; [by vm_compute|].
  apply Z.log2_spec. lia.
Qed.

(** The digits of a non-negative number: a digit first, digits only,
    and the number as their value. *)
Lemma digits_of_number n :
  0 <= n →
  let ds := digits_of (S (Z.to_nat (Z.log2 n))) n [] in
  (∃ d l, ds = d :: l) ∧ Forall (λ c, isdigit c = true) ds
  ∧ parse_digits ds 0 = n.
Proof.
  intros Hn ds. split; [by apply digits_of_cons|split].
  - by apply digits_of_all_digits.
  - unfold ds. rewrite parse_digits_of; [done| |lia].
    split; [done|by apply log2_fuel].
Qed.

Lemma print_int_chars d :
  Forall (λ c, isdigit c = true ∨ c = "-"%char) (print_int d).
Proof.
  unfold print_int. destruct (Z.ltb_spec d 0).
  - constructor; [by right|].
    destruct (digits_of_number (- d)) as (_ & Hall & _); [lia|].
    eapply Forall_impl; [exact Hall|]. by left.
  - destruct (digits_of_number d) as (_ & Hall & _); [lia|].
    eapply Forall_impl; [exact Hall|]. by left.
Qed.

Lemma print_int_nonempty d : print_int d ≠ [].
Proof.
  unfold print_int. destruct (Z.ltb_spec d 0); [done|].
  destruct (digits_of_number d) as ((c & l & Heq) & _); [lia|].
  cbv zeta in Heq. by rewrite Heq.
Qed.

Lemma strtol_print_int d : LONG_MIN <= d <= LONG_MAX → strtol (print_int d) = d.
Proof.
  intros Hd. unfold print_int, strtol. destruct (Z.ltb_spec d 0).
  - destruct (digits_of_number (- d)) as (_ & _ & Hval); [lia|].
    cbv zeta in Hval. cbn [skip_spaces]. change (isspace "-") with false.
    cbv iota. change (Ascii.eqb "-" "-") with true. cbv iota beta.
    rewrite Hval. lia.
  - destruct (digits_of_number d) as ((c & l & Heq) & Hall & Hval); [lia|].
    cbv zeta in Heq, Hall, Hval. rewrite Heq in *.
    apply Forall_cons in Hall as [Hc _].
    cbn [skip_spaces]. rewrite (isdigit_not_space c Hc).
    rewrite (isdigit_neq c "-" Hc eq_refl), (isdigit_neq c "+" Hc eq_refl).
    rewrite Hval. lia.
Qed.

(** [atoi] reads back every [int] that ["%d"] printed. *)
Lemma atoi_print_int d : int_range d → atoi (print_int d) = d.
Proof.
  intros Hd. unfold atoi. rewrite strtol_print_int.
  - by apply wrap_int_id.
  - unfold int_range, INT_MIN, INT_MAX, LONG_MIN, LONG_MAX in *. lia.
Qed.

(** ** Reading lines *)

Lemma fgets_bytes_split n f :
  ∀ l r, fgets_bytes n f = (l, r) → f = l ++ r ∧ (length l ≤ n)%nat.
Proof.
  revert f. induction n as [|n IH]; intros f l r.
  - destruct f; simpl; intros [= <- <-]; simpl; split; (done || lia).
  - destruct f as [|c f]; cbn [fgets_bytes].
    + intros [= <- <-]. simpl; split; (done || lia).
    + destruct (Ascii.eqb c NL).
      * intros [= <- <-]. simpl; split; (done || lia).
      * destruct (fgets_bytes n f) as [l' r'] eqn:Hrec.
        intros [= <- <-]. destruct (IH f l' r' Hrec) as [-> Hlen].
        simpl; split; (done || lia).
Qed.

Lemma fgets_bytes_progress n c f l r :
  fgets_bytes (S n) (c :: f) = (l, r) → (0 < length l)%nat.
Proof.
  cbn [fgets_bytes]. destruct (Ascii.eqb c NL).
  - intros [= <- <-]. simpl; lia.
  - destruct (fgets_bytes n f). intros [= <- <-]. simpl; lia.
Qed.

(** A call of [fgets] that succeeds takes at least one byte and at most
    [MAX_LINE - 1] of them off the stream. *)
Lemma fgets_some f buf f' :
  fgets MAX_LINE f = Some (buf, f') →
  f = buf ++ f' ∧ (0 < length buf < MAX_LINE)%nat.
Proof.
  unfold fgets. destruct f as [|c f]; [done|]. intros H.
  assert (Hb : fgets_bytes (MAX_LINE - 1) (c :: f) = (buf, f')) by congruence.
  clear H. destruct (fgets_bytes_split _ _ _ _ Hb) as [Heq Hlen].
  split; [done|]. split; [|unfold MAX_LINE in *; lia].
  change (MAX_LINE - 1)%nat with (S 1022) in Hb.
  by apply fgets_bytes_progress in Hb.
Qed.

Lemma fgets_none f : fgets MAX_LINE f = None ↔ f = [].
Proof. unfold fgets. by destruct f. Qed.

(** A line that fits the buffer is read whole, newline included. *)
Lemma fgets_bytes_line n l rest :
  NL ∉ l → (length l < n)%nat →
  fgets_bytes n (l ++ NL :: rest) = (l ++ [NL], rest).
Proof.
  revert n. induction l as [|c l IH]; intros n Hnl Hlen.
  - destruct n; [simpl in Hlen; lia|]. done.
  - apply not_elem_of_cons in Hnl as [Hne Hnl]. simpl in Hlen.
    destruct n as [|n]; [lia|]. cbn [fgets_bytes app].
    destruct (Ascii.eqb_spec c NL) as [->|_]; [done|].
    by rewrite IH by (done || lia).
Qed.

Lemma fgets_line l rest :
  NL ∉ l → (length l + 1 < MAX_LINE)%nat →
  fgets MAX_LINE (l ++ NL :: rest) = Some (l ++ [NL], rest).
Proof.
  intros Hnl Hlen. unfold fgets.
  destruct (l ++ NL :: rest) eqn:Heq; [by destruct l|].
  rewrite <- Heq. f_equal. apply fgets_bytes_line; [done|lia].
Qed.

(** The last line of a file, when it has no newline. *)
Lemma fgets_bytes_last n l :
  NL ∉ l → (length l ≤ n)%nat → fgets_bytes n l = (l, []).
Proof.
  revert n. induction l as [|c l IH]; intros n Hnl Hlen.
  - by destruct n.
  - apply not_elem_of_cons in Hnl as [Hne Hnl]. simpl in Hlen.
    destruct n as [|n]; [lia|]. cbn [fgets_bytes].
    destruct (Ascii.eqb_spec c NL) as [->|_]; [done|].
    by rewrite IH by (done || lia).
Qed.

Lemma cut_at_absent c s : c ∉ s → cut_at c s = s.
Proof.
  induction s as [|d s IH]; [done|]. intros [Hne Hs]%not_elem_of_cons.
  simpl. destruct (Ascii.eqb_spec d c) as [->|_]; [done|]. by rewrite IH.
Qed.

Lemma cut_at_first c s r : c ∉ s → cut_at c (s ++ c :: r) = s.
Proof.
  induction s as [|d s IH]; intros Hs; simpl.
  - by rewrite Ascii.eqb_refl.
  - apply not_elem_of_cons in Hs as [Hne Hs].
    destruct (Ascii.eqb_spec d c) as [->|_]; [done|]. by rewrite IH.
Qed.

Lemma cut_at_length c s : (length (cut_at c s) ≤ length s)%nat.
Proof.
  induction s as [|d s IH]; simpl; [lia|].
  destruct (Ascii.eqb d c); simpl; lia.
Qed.

(** ** The loading loop *)

Lemma load_loop_enough fuel1 fuel2 pl f :
  (length f ≤ fuel1)%nat → (length f ≤ fuel2)%nat →
  load_loop fuel1 pl f = load_loop fuel2 pl f.
Proof.
  revert fuel2 pl f. induction fuel1 as [|fuel1 IH]; intros fuel2 pl f H1 H2.
  - destruct f; [|simpl in H1; lia]. by destruct fuel2.
  - destruct fuel2 as [|fuel2].
    + destruct f; [done|simpl in H2; lia].
    + cbn [load_loop]. destruct (fgets MAX_LINE f) as [[buf f']|] eqn:Hg; [|done].
      apply fgets_some in Hg as [-> Hlen]. rewrite length_app in H1, H2.
      destruct (load_record pl buf); [|done]. apply IH; lia.
Qed.

(** The loop as the source writes it: read a line, load it, go on. *)
Lemma load_records_eq pl f :
  load_records pl f =
    match fgets MAX_LINE f with
    | None => Some pl
    | Some (buf, f') =>
        match load_record pl buf with
        | Some pl' => load_records pl' f'
        | None => None
        end
    end.
Proof.
  unfold load_records.
  destruct (fgets MAX_LINE f) as [[buf f']|] eqn:Hg.
  - pose proof (fgets_some _ _ _ Hg) as [Heq Hlen].
    destruct (length f) as [|n] eqn:Hn.
    { subst f. rewrite length_app in Hn. lia. }
    cbn [load_loop]. rewrite Hg.
    destruct (load_record pl buf); [|done].
    apply load_loop_enough; [|done].
    subst f. rewrite length_app in Hn. lia.
  - apply fgets_none in Hg as ->. done.
Qed.

(** ** No store outside [tmp] *)

Lemma skip_to_comma_length s : (length (skip_to_comma s) ≤ length s)%nat.
Proof.
  induction s as [|c s IH]; simpl; [lia|].
  destruct (Ascii.eqb c COMMA); simpl; lia.
Qed.

Lemma skip_comma_length s : (length (skip_comma s) ≤ length s)%nat.
Proof. destruct s as [|c s]; simpl; [lia|]. destruct (Ascii.eqb c COMMA); simpl; lia. Qed.

Lemma or_null_length s s' : or_null s = Some s' → s' = s.
Proof. destruct s; simpl; congruence. Qed.

Lemma read_quoted_safe n :
  ∀ s ti, (length s ≤ n)%nat → (ti + length s < MAX_LINE)%nat →
  ∃ fld s1, read_quoted s ti = Some (fld, s1)
            ∧ (length fld ≤ length s)%nat ∧ (length s1 ≤ length s)%nat.
Proof.
  induction n as [|n IH]; intros s ti Hn Hlen.
  - destruct s; [|simpl in Hn; lia]. exists [], []. simpl. split; [done|lia].
  - destruct s as [|c s]; [exists [], []; simpl; split; [done|lia]|].
    simpl in Hn, Hlen. cbn [read_quoted].
    destruct (Nat.leb_spec MAX_LINE ti); [lia|].
    destruct (Ascii.eqb c DQUOTE).
    + destruct s as [|d s]; [exists [], []; simpl; split; [done|lia]|].
      simpl in Hn, Hlen. destruct (Ascii.eqb d DQUOTE).
      * destruct (IH s (S ti)) as (fld & s1 & -> & Hf & Hs); [lia..|].
        exists (DQUOTE :: fld), s1. simpl. split; [done|lia].
      * exists [], (d :: s). simpl. split; [done|lia].
    + destruct (Nat.leb_spec MAX_LINE (S ti + 1)).
      * exists [c], s. simpl. split; [done|lia].
      * destruct (IH s (S ti)) as (fld & s1 & -> & Hf & Hs); [lia..|].
        exists (c :: fld), s1. simpl. split; [done|lia].
Qed.

Lemma read_plain_length s ti :
  ∀ fld s1, read_plain s ti = (fld, s1) → (length s1 ≤ length s)%nat.
Proof.
  revert ti. induction s as [|c s IH]; intros ti fld s1; cbn [read_plain].
  - intros [= <- <-]. done.
  - destruct (Ascii.eqb c COMMA); [intros [= <- <-]; done|].
    destruct (MAX_LINE <=? S ti + 1)%nat; [intros [= <- <-]; simpl; lia|].
    destruct (read_plain s (S ti)) as [fld' s1'] eqn:Hrec.
    intros [= <- <-]. specialize (IH _ _ _ Hrec). simpl; lia.
Qed.

(** On a line shorter than the buffer no store of [csv_read_field]
    leaves [tmp], and the pointer stays inside the line. *)
Lemma csv_read_field_safe n sp :
  (n < MAX_LINE)%nat → within n sp →
  ∃ fld sp', csv_read_field sp = Some (fld, sp') ∧ within n sp'.
Proof.
  intros Hn Hsp. destruct sp as [[|c s]|]; cbn [csv_read_field].
  1, 3: exists [], None; split; [done|intros ? [=]].
  specialize (Hsp _ eq_refl). simpl in Hsp.
  destruct (Ascii.eqb c DQUOTE).
  - destruct (read_quoted_safe (length s) s 0) as (fld & s1 & -> & Hf & Hs);
      [lia..|].
    destruct (Nat.leb_spec MAX_LINE (length fld)); [lia|].
    eexists _, _. split; [done|]. intros s' ->%or_null_length.
    pose proof (skip_comma_length (skip_to_comma s1)).
    pose proof (skip_to_comma_length s1). lia.
  - destruct (read_plain (c :: s) 0) as [fld s1] eqn:Hp.
    eexists _, _. split; [done|]. intros s' ->%or_null_length.
    pose proof (read_plain_length (c :: s) 0 fld s1 Hp) as Hl.
    pose proof (skip_comma_length s1). simpl in Hl. lia.
Qed.

(** What one line does to every playlist alike: it adds the track [d]
    it holds, or nothing. *)
Lemma load_record_frame buf :
  (length buf < MAX_LINE)%nat →
  ∃ d, ∀ pl, ∃ pl', load_record pl buf = Some pl' ∧ items pl' = items pl ++ d.
Proof.
  intros Hlen. unfold load_record.
  set (line := cut_at NL (cut_at NUL buf)).
  assert (Hw : within (length buf) (Some line)).
  { intros s [= <-]. unfold line.
    pose proof (cut_at_length NL (cut_at NUL buf)).
    pose proof (cut_at_length NUL buf). lia. }
  destruct (csv_read_field_safe _ _ Hlen Hw) as (f1 & p1 & -> & Hw1).
  destruct (csv_read_field_safe _ _ Hlen Hw1) as (f2 & p2 & -> & Hw2).
  destruct (csv_read_field_safe _ _ Hlen Hw2) as (f3 & p3 & -> & Hw3).
  destruct (csv_read_field_safe _ _ Hlen Hw3) as (f4 & p4 & -> & Hw4).
  destruct f1 as [|c f1].
  - exists []. intros pl. exists pl. by rewrite app_nil_r.
  - exists [mkTrack (c :: f1) f2 f3 (atoi f4)]. intros pl.
    eexists. split; [done|]. apply add_track_items.
Qed.

(** The loop never stores outside [tmp], and appends to every playlist
    the same tracks [d], those of the lines of [f] in their order. *)
Lemma load_records_frame f :
  ∃ d, ∀ pl, ∃ pl', load_records pl f = Some pl' ∧ items pl' = items pl ++ d.
Proof.
  remember (length f) as n eqn:Hn. revert f Hn.
  induction n as [n IH] using lt_wf_ind. intros f ->.
  destruct (fgets MAX_LINE f) as [[buf f']|] eqn:Hg.
  - pose proof (fgets_some _ _ _ Hg) as [Heq Hlen].
    destruct (load_record_frame buf) as [d1 H1]; [lia|].
    destruct (IH (length f')) with (f := f') as [d2 H2]; [|done|].
    { subst f. rewrite length_app. lia. }
    exists (d1 ++ d2). intros pl. rewrite load_records_eq, Hg.
    destruct (H1 pl) as (pl1 & -> & Hi1).
    destruct (H2 pl1) as (pl2 & -> & Hi2).
    exists pl2. split; [done|]. by rewrite Hi2, Hi1, app_assoc.
  - exists []. intros pl. rewrite load_records_eq, Hg.
    exists pl. by rewrite app_nil_r.
Qed.

(** ** Writing a record and loading it back *)

Lemma escape_body_chars c s : c ∈ escape_body s → c = DQUOTE ∨ c ∈ s.
Proof.
  induction s as [|d s IH]; simpl; [intros H; by apply elem_of_nil in H|].
  destruct (Ascii.eqb_spec d DQUOTE) as [->|_]; rewrite !elem_of_cons;
    intuition.
Qed.

Lemma csv_escape_field_chars c s :
  c ∈ csv_escape_field s → c = DQUOTE ∨ c ∈ s.
Proof.
  unfold csv_escape_field. destruct (_ || _); [|by right].
  rewrite elem_of_cons, elem_of_app, list_elem_of_singleton.
  intros [?|[?%escape_body_chars|?]]; tauto.
Qed.

Lemma escape_body_length s : (length s ≤ length (escape_body s))%nat.
Proof.
  induction s as [|d s IH]; simpl; [lia|].
  destruct (Ascii.eqb d DQUOTE); simpl; lia.
Qed.

Lemma csv_escape_field_length s : (length s ≤ length (csv_escape_field s))%nat.
Proof.
  unfold csv_escape_field. destruct (_ || _); [|lia].
  simpl. rewrite length_app. pose proof (escape_body_length s). lia.
Qed.

Lemma print_int_not_in c d :
  isdigit c = false → c ≠ "-"%char → c ∉ print_int d.
Proof.
  intros Hc Hm Hin. pose proof (print_int_chars d) as Hall.
  rewrite Forall_forall in Hall. destruct (Hall c Hin); congruence.
Qed.

Lemma print_int_plain d : csv_escape_field (print_int d) = print_int d.
Proof.
  apply csv_escape_field_plain. intros [H|H]; revert H;
    by apply print_int_not_in.
Qed.

Lemma csv_read_field_print_int d :
  (length (print_int d) < MAX_LINE)%nat →
  csv_read_field (Some (print_int d)) = Some (print_int d, None).
Proof.
  intros H.
  pose proof (csv_read_field_escaped (print_int d) [] H (or_introl eq_refl))
    as Hr.
  by rewrite print_int_plain, app_nil_r in Hr.
Qed.

Lemma or_null_field s r : or_null (s ++ COMMA :: r) = Some (s ++ COMMA :: r).
Proof. by destruct s. Qed.

(** The text of a record in front of its newline. *)
Lemma write_record_line t :
  write_record t
  = (csv_escape_field (title t) ++ COMMA ::
     csv_escape_field (artist t) ++ COMMA ::
     csv_escape_field (album t) ++ COMMA :: print_int (duration t)) ++ [NL].
Proof.
  unfold write_record.
  repeat (progress (rewrite <- ?app_assoc; cbn [app])). done.
Qed.

Lemma record_line_chars c t :
  c ≠ DQUOTE → c ≠ COMMA → isdigit c = false → c ≠ "-"%char →
  c ∉ title t → c ∉ artist t → c ∉ album t →
  c ∉ csv_escape_field (title t) ++ COMMA ::
      csv_escape_field (artist t) ++ COMMA ::
      csv_escape_field (album t) ++ COMMA :: print_int (duration t).
Proof.
  intros Hq Hc Hd Hm H1 H2 H3.
  repeat (rewrite elem_of_app || rewrite elem_of_cons).
  pose proof (print_int_not_in c (duration t) Hd Hm).
  pose proof (csv_escape_field_chars c (title t)).
  pose proof (csv_escape_field_chars c (artist t)).
  pose proof (csv_escape_field_chars c (album t)).
  tauto.
Qed.

Lemma cstring_no_nul s : cstring s → NUL ∉ s.
Proof. unfold cstring. rewrite Forall_forall. intros H Hin. by apply (H NUL). Qed.

(** The loop body of the loader, on the line that the saver wrote for
    the track [t], finds the four fields of [t]. *)
Lemma load_record_written pl t :
  track_ok t → no_newline t → fits_line t →
  load_record pl (write_record t)
  = Some (match title t with
          | [] => pl
          | _ :: _ => add_track pl (title t) (artist t) (album t) (duration t)
          end).
Proof.
  intros (Ht & Har & Hal & Hd) (Nt & Nar & Nal) Hfit.
  unfold fits_line in Hfit. rewrite write_record_line in *.
  set (P := print_int (duration t)) in *.
  set (E3 := csv_escape_field (album t)) in *.
  set (E2 := csv_escape_field (artist t)) in *.
  set (E1 := csv_escape_field (title t)) in *.
  assert (Hnul : NUL ∉ (E1 ++ COMMA :: E2 ++ COMMA :: E3 ++ COMMA :: P) ++ [NL]).
  { rewrite elem_of_app, list_elem_of_singleton. intros [H|H]; [|done].
    revert H. apply record_line_chars; try done; by apply cstring_no_nul. }
  assert (Hnl : NL ∉ E1 ++ COMMA :: E2 ++ COMMA :: E3 ++ COMMA :: P).
  { by apply record_line_chars. }
  unfold load_record. rewrite (cut_at_absent NUL _ Hnul), (cut_at_first NL _ _ Hnl).
  rewrite !length_app in Hfit. cbn [length] in Hfit.
  rewrite !length_app in Hfit. cbn [length] in Hfit.
  rewrite !length_app in Hfit. cbn [length] in Hfit.
  pose proof (csv_escape_field_length (title t)).
  pose proof (csv_escape_field_length (artist t)).
  pose proof (csv_escape_field_length (album t)).
  fold E1 E2 E3 in H, H0, H1.
  unfold E1 at 1. rewrite csv_read_field_escaped by (lia || right; eauto).
  cbn [skip_comma]. change (Ascii.eqb COMMA COMMA) with true. cbv iota.
  rewrite or_null_field.
  unfold E2 at 1. rewrite csv_read_field_escaped by (lia || right; eauto).
  cbn [skip_comma]. change (Ascii.eqb COMMA COMMA) with true. cbv iota.
  rewrite or_null_field.
  unfold E3 at 1. rewrite csv_read_field_escaped by (lia || right; eauto).
  cbn [skip_comma]. change (Ascii.eqb COMMA COMMA) with true. cbv iota.
  assert (HP : or_null P = Some P).
  { pose proof (print_int_nonempty (duration t)). fold P in H2. by destruct P. }
  rewrite HP.
  unfold P in *. rewrite csv_read_field_print_int by lia.
  by rewrite atoi_print_int.
Qed.

(** The loop loads back, in order, the records that the saver wrote. *)
Lemma load_records_written pl a :
  Forall loadable a →
  ∃ pl', load_records pl (write_records a) = Some pl'
         ∧ items pl' = items pl ++ a.
Proof.
  intros Hall. revert pl. induction Hall as [|t a (Hok & Hnl & Hfit & Hti) _ IH];
    intros pl.
  - exists pl. rewrite app_nil_r. done.
  - cbn [write_records]. rewrite load_records_eq.
    pose proof (load_record_written pl t Hok Hnl Hfit) as Hrec.
    pose proof Hfit as Hlen. unfold fits_line in Hlen.
    rewrite write_record_line in *. rewrite length_app in Hlen. cbn [length] in Hlen.
    assert (Hline : NL ∉ csv_escape_field (title t) ++ COMMA ::
              csv_escape_field (artist t) ++ COMMA ::
              csv_escape_field (album t) ++ COMMA :: print_int (duration t)).
    { destruct Hnl as (? & ? & ?). by apply record_line_chars. }
    rewrite <- app_assoc. cbn [app].
    rewrite fgets_line by (done || lia). rewrite Hrec.
    destruct (title t) as [|c ti] eqn:Htitle; [done|].
    destruct (IH (add_track pl (c :: ti) (artist t) (album t) (duration t)))
      as (pl' & -> & Hitems).
    exists pl'. split; [done|].
    rewrite Hitems, add_track_items, <- app_assoc. cbn [app].
    rewrite <- Htitle. by destruct t.
Qed.

Lemma csv_header_line :
  csv_header = lit "title,artist,album,duration_seconds" ++ [NL]
  ∧ NL ∉ lit "title,artist,album,duration_seconds".
Proof.
  split; [done|]. rewrite <- strchr_spec. by vm_compute.
Qed.

Lemma load_saved pl0 c :
  Forall loadable (items c) →
  ∃ pl', load_playlist_csv pl0 (save_playlist_csv c true).2 = Some (1, pl')
         ∧ items pl' = items pl0 ++ items c.
Proof.
  intros Hall. destruct (load_records_written pl0 _ Hall) as (pl' & Hload & Hitems).
  exists pl'. split; [|done].
  unfold save_playlist_csv, load_playlist_csv. cbn [snd].
  destruct csv_header_line as [-> Hnl].
  rewrite <- app_assoc. cbn [app].
  rewrite fgets_line by (done || (vm_compute; lia)).
  cbv zeta.
  replace (negb (nonnull (strstr (cut_at NUL (lit "title,artist,album,duration_seconds" ++ [NL])) (lit "title")))
           || negb (nonnull (strstr (cut_at NUL (lit "title,artist,album,duration_seconds" ++ [NL])) (lit "artist"))))
    with false by (by vm_compute).
  by rewrite Hload.
Qed.

Lemma cstring_strchr s : nonnull (strchr s NUL) = false → cstring s.
Proof.
  intros H. apply Forall_forall. intros c Hin ->.
  apply strchr_spec in Hin. congruence.
Qed.

Lemma not_elem_of_strchr c s : nonnull (strchr s c) = false → c ∉ s.
Proof. intros H Hin. apply strchr_spec in Hin. congruence. Qed.

(** The conditions on the sample tracks are closed: they are computed. *)
Ltac sample_track :=
  repeat constructor;
  try (apply cstring_strchr; vm_compute; reflexivity);
  try (apply not_elem_of_strchr; vm_compute; reflexivity);
  try (vm_compute; congruence);
  try (unfold fits_line; vm_compute; lia).

(** C1, for the tracks the loader accepts.  Saving a playlist and
    loading the file into an empty playlist gives back the same tracks,
    field for field and in the same order, when no field holds a
    newline, every title is non-empty and every record fits the line
    buffer of the loader ([MAX_LINE - 1] bytes with its newline). *)
Theorem save_load_roundtrip (c : Playlist) :
  Forall loadable (items c) →
  ∃ pl', load_playlist_csv init_playlist (save_playlist_csv c true).2
           = Some (1, pl')
         ∧ items pl' = items c.
Proof.
  intros Hall. destruct (load_saved init_playlist c Hall) as (pl' & Hload & Hitems).
  exists pl'. split; [done|]. by rewrite Hitems.
Qed.

Lemma save_load_roundtrip_witness :
  Forall loadable (items two_songs)
  ∧ ∃ pl', load_playlist_csv init_playlist (save_playlist_csv two_songs true).2
             = Some (1, pl')
           ∧ items pl' = items two_songs.
Proof.
  assert (H : Forall loadable (items two_songs)).
  { sample_track. }
  split; [exact H|]. exact (save_load_roundtrip two_songs H).
Defined.

(** C1 as stated fails on a track without a title: no field of
    [untitled] holds a newline, and loading its file gives no track. *)
Lemma roundtrip_untitled :
  Forall (λ t, track_ok t ∧ no_newline t) (items untitled)
  ∧ load_playlist_csv init_playlist (save_playlist_csv untitled true).2
    = Some (1, init_playlist)
  ∧ items init_playlist ≠ items untitled.
Proof.
  split; [sample_track|split; [by vm_compute|done]].
Qed.

(** It also fails on a record longer than the line buffer: the loader
    reads the record of [long_title] as two lines, and the second one
    has an empty first field. *)
Lemma roundtrip_long_title :
  Forall (λ t, track_ok t ∧ no_newline t ∧ title t ≠ []) (items long_title)
  ∧ ∃ pl', load_playlist_csv init_playlist (save_playlist_csv long_title true).2
           = Some (1, pl')
         ∧ items pl' = [mkTrack (replicate 1023 "a"%char) [] [] 0]
         ∧ items pl' ≠ items long_title.
Proof.
  split.
  - sample_track.
  - eexists. split; [by vm_compute|]. split; [done|]. simpl. congruence.
Qed.

(** ** Loading appends *)

Lemma load_playlist_csv_frame text :
  ∃ r d, ∀ pl, ∃ pl', load_playlist_csv pl (Some text) = Some (r, pl')
                      ∧ items pl' = items pl ++ d.
Proof.
  unfold load_playlist_csv.
  destruct (fgets MAX_LINE text) as [[buf rest]|].
  - cbv zeta.
    destruct (load_records_frame
                (if negb (nonnull (strstr (cut_at NUL buf) (lit "title")))
                    || negb (nonnull (strstr (cut_at NUL buf) (lit "artist")))
                 then text else rest)) as [d Hd].
    exists 1, d. intros pl. destruct (Hd pl) as (pl' & -> & Hi). eauto.
  - exists 0, []. intros pl. exists pl. by rewrite app_nil_r.
Qed.

Lemma fgets_lines_enough fuel1 fuel2 f :
  (length f ≤ fuel1)%nat → (length f ≤ fuel2)%nat →
  fgets_lines fuel1 f = fgets_lines fuel2 f.
Proof.
  revert fuel2 f. induction fuel1 as [|fuel1 IH]; intros fuel2 f H1 H2.
  - destruct f; [|simpl in H1; lia]. by destruct fuel2.
  - destruct fuel2 as [|fuel2].
    + destruct f; [done|simpl in H2; lia].
    + cbn [fgets_lines].
      destruct (fgets MAX_LINE f) as [[buf f']|] eqn:Hg; [|done].
      apply fgets_some in Hg as [-> Hlen]. rewrite length_app in H1, H2.
      f_equal. apply IH; lia.
Qed.

(** The lines of a text: the first buffer, then the lines of the rest. *)
Lemma file_lines_eq f :
  file_lines f =
    match fgets MAX_LINE f with
    | None => []
    | Some (buf, f') => buf :: file_lines f'
    end.
Proof.
  unfold file_lines.
  destruct (fgets MAX_LINE f) as [[buf f']|] eqn:Hg.
  - pose proof (fgets_some _ _ _ Hg) as [Heq Hlen].
    destruct (length f) as [|n] eqn:Hn.
    { subst f. rewrite length_app in Hn. lia. }
    cbn [fgets_lines]. rewrite Hg. f_equal.
    apply fgets_lines_enough; [|done].
    subst f. rewrite length_app in Hn. lia.
  - apply fgets_none in Hg as ->. done.
Qed.

(** The loop body adds to the playlist the record that the line holds. *)
Lemma load_record_line_track pl buf :
  (length buf < MAX_LINE)%nat →
  ∃ pl1, load_record pl buf = Some pl1
         ∧ items pl1 = items pl ++ option_list (line_track buf).
Proof.
  intros Hlen. unfold load_record, line_track. fold (line_of buf).
  assert (Hw : within (length buf) (Some (line_of buf))).
  { intros s [= <-]. unfold line_of.
    pose proof (cut_at_length NL (cut_at NUL buf)).
    pose proof (cut_at_length NUL buf). lia. }
  destruct (csv_read_field_safe _ _ Hlen Hw) as (f1 & p1 & -> & Hw1).
  destruct (csv_read_field_safe _ _ Hlen Hw1) as (f2 & p2 & -> & Hw2).
  destruct (csv_read_field_safe _ _ Hlen Hw2) as (f3 & p3 & -> & Hw3).
  destruct (csv_read_field_safe _ _ Hlen Hw3) as (f4 & p4 & -> & Hw4).
  destruct f1 as [|c f1].
  - exists pl. by rewrite app_nil_r.
  - eexists. split; [done|]. apply add_track_items.
Qed.

(** The loop appends the records of the lines, line after line. *)
Lemma load_records_decoded f :
  ∀ pl, ∃ pl', load_records pl f = Some pl'
               ∧ items pl' = items pl ++ omap line_track (file_lines f).
Proof.
  remember (length f) as n eqn:Hn. revert f Hn.
  induction n as [n IH] using lt_wf_ind. intros f -> pl.
  rewrite load_records_eq, file_lines_eq.
  destruct (fgets MAX_LINE f) as [[buf f']|] eqn:Hg.
  - pose proof (fgets_some _ _ _ Hg) as [Heq Hlen].
    destruct (load_record_line_track pl buf) as (pl1 & -> & Hi1); [lia|].
    destruct (IH (length f')) with (f := f') (pl := pl1) as (pl' & -> & Hi');
      [subst f; rewrite length_app; lia|done|].
    exists pl'. split; [done|]. rewrite Hi', Hi1, <- app_assoc. f_equal.
    change (omap line_track (buf :: file_lines f'))
      with (match line_track buf with
            | Some y => y :: omap line_track (file_lines f')
            | None => omap line_track (file_lines f')
            end).
    by destruct (line_track buf).
  - exists pl. by rewrite app_nil_r.
Qed.

Lemma load_playlist_csv_decoded pl text :
  ∃ r pl', load_playlist_csv pl (Some text) = Some (r, pl')
           ∧ items pl' = items pl ++ decoded_tracks text.
Proof.
  unfold load_playlist_csv, decoded_tracks, data_of.
  destruct (fgets MAX_LINE text) as [[buf rest]|].
  - cbv zeta.
    destruct (load_records_decoded
                (if negb (nonnull (strstr (cut_at NUL buf) (lit "title")))
                    || negb (nonnull (strstr (cut_at NUL buf) (lit "artist")))
                 then text else rest) pl) as (pl' & -> & Hi).
    by exists 1, pl'.
  - exists 0, pl. split; [done|]. by rewrite app_nil_r.
Qed.

Lemma file_lines_line l rest :
  NL ∉ l → (length l + 1 < MAX_LINE)%nat →
  file_lines (l ++ NL :: rest) = (l ++ [NL]) :: file_lines rest.
Proof. intros Hnl Hlen. by rewrite file_lines_eq, fgets_line. Qed.

Lemma line_track_written t : loadable t → line_track (write_record t) = Some t.
Proof.
  intros (Hok & Hnl & Hfit & Hti).
  pose proof (load_record_written init_playlist t Hok Hnl Hfit) as Hrec.
  destruct (load_record_line_track init_playlist (write_record t))
    as (pl1 & Hrec1 & Hi1); [done|].
  rewrite Hrec in Hrec1. injection Hrec1 as <-.
  destruct (title t) as [|c ti] eqn:Htitle; [done|].
  rewrite add_track_items in Hi1. apply app_inv_head in Hi1.
  destruct (line_track (write_record t)) as [t'|]; [|done].
  injection Hi1 as <-. f_equal. rewrite <- Htitle. by destruct t.
Qed.

(** C9. Loading a text into a playlist appends the records of the
    text.  The tracks that were there keep their values and positions;
    after them come the records that the lines of the text hold, line
    after line, each at the position that its place in the text gives
    it; they are the tracks that the same text gives in an empty
    playlist.  The lines are taken in the order of the text, a written
    record is the line of its track, and so the file saved from a
    playlist of tracks that the loader accepts appends these tracks in
    their order. *)
Theorem load_appends (pl : Playlist) (text : list ascii) :
  (∃ r pl' fresh,
     load_playlist_csv pl (Some text) = Some (r, pl')
     ∧ load_playlist_csv init_playlist (Some text) = Some (r, fresh)
     ∧ items fresh = decoded_tracks text
     ∧ items pl' = items pl ++ items fresh
     ∧ (∀ i t, items pl !! i = Some t → items pl' !! i = Some t)
     ∧ (∀ i t, decoded_tracks text !! i = Some t →
          items pl' !! (size pl + i)%nat = Some t))
  ∧ (∀ l rest, NL ∉ l → (length l + 1 < MAX_LINE)%nat →
       file_lines (l ++ NL :: rest) = (l ++ [NL]) :: file_lines rest)
  ∧ (∀ t, loadable t → line_track (write_record t) = Some t)
  ∧ (∀ c, Forall loadable (items c) →
       ∃ pl', load_playlist_csv pl (save_playlist_csv c true).2 = Some (1, pl')
              ∧ items pl' = items pl ++ items c).
Proof.
  split; [|split; [apply file_lines_line|split; [apply line_track_written|]]].
  - destruct (load_playlist_csv_decoded pl text) as (r & pl' & Hload & Hi).
    destruct (load_playlist_csv_decoded init_playlist text)
      as (r0 & fresh & Hfresh & Hf).
    assert (r0 = r) as ->.
    { unfold load_playlist_csv in Hload, Hfresh.
      destruct (fgets MAX_LINE text) as [[buf rest]|]; [|congruence].
      cbv zeta in Hload, Hfresh.
      destruct (load_records pl _); [|done].
      destruct (load_records init_playlist _); [|done]. congruence. }
    exists r, pl', fresh. simpl in Hf.
    split; [done|]. split; [done|]. split; [done|].
    split; [by rewrite Hf|]. split.
    + intros i t Hit. rewrite Hi. by apply lookup_app_l_Some.
    + intros i t Hit. rewrite Hi. unfold size.
      rewrite lookup_app_r by lia. by replace (length (items pl) + i - length (items pl))%nat with i by lia.
  - intros c Hall. by apply load_saved.
Qed.

Lemma load_appends_witness :
  (∃ r pl', load_playlist_csv three_tracks (Some mixed_text) = Some (r, pl')
            ∧ items pl' !! (size three_tracks + 0)%nat
              = Some (mkTrack (lit "One") (lit "a") (lit "b") 7)
            ∧ items pl' !! (size three_tracks + 1)%nat
              = Some (mkTrack (lit "Two") (lit "c") [] 0))
  ∧ (∃ pl', load_playlist_csv three_tracks (save_playlist_csv two_songs true).2
            = Some (1, pl')
            ∧ items pl' = items three_tracks ++ items two_songs).
Proof.
  destruct (load_appends three_tracks mixed_text)
    as ((r & pl' & fresh & Hload & _ & _ & _ & _ & Hpos) & _ & _ & Hsaved).
  split.
  - exists r, pl'. split; [exact Hload|].
    split; apply Hpos; by vm_compute.
  - apply Hsaved. sample_track.
Defined.

(** ** Malformed input *)

Lemma skip_spaces_split s :
  ∃ ws, s = ws ++ skip_spaces s ∧ Forall (λ c, isspace c = true) ws.
Proof.
  induction s as [|c s (ws & Heq & Hws)]; [by exists []|].
  simpl. destruct (isspace c) eqn:Hc.
  - exists (c :: ws). split; [by rewrite <- app_comm_cons, <- Heq|by constructor].
  - by exists [].
Qed.

Lemma skip_spaces_head c s' s :
  skip_spaces s = c :: s' → isspace c = false.
Proof.
  induction s as [|d s IH]; simpl; [done|].
  destruct (isspace d) eqn:Hd; [done|]. congruence.
Qed.

Lemma parse_digits_none s acc :
  (∀ d r, s = d :: r → isdigit d = false) → parse_digits s acc = acc.
Proof.
  destruct s as [|d r]; [done|]. intros H. simpl. by rewrite (H d r).
Qed.

(** [atoi] gives 0 for a text in which it finds no number. *)
Lemma atoi_unparsable s : ¬ starts_number s → atoi s = 0.
Proof.
  intros Hno. unfold atoi, strtol.
  destruct (skip_spaces_split s) as (ws & Heq & Hws).
  destruct (skip_spaces s) as [|c s'] eqn:Hs; [done|].
  assert (Hnone : ∀ sg tl, (sg = [] ∨ sg = ["-"%char] ∨ sg = ["+"%char]) →
            c :: s' = sg ++ tl → parse_digits tl 0 = 0).
  { intros sg tl Hsg Htl. apply parse_digits_none. intros d r -> .
    destruct (isdigit d) eqn:Hd; [|done]. exfalso. apply Hno.
    exists ws, sg, d, r. by rewrite <- Htl. }
  destruct (Ascii.eqb_spec c "-") as [->|_].
  { by rewrite (Hnone ["-"%char] s') by (done || tauto). }
  destruct (Ascii.eqb_spec c "+") as [->|_].
  { by rewrite (Hnone ["+"%char] s') by (done || tauto). }
  by rewrite (Hnone [] (c :: s')) by (done || tauto).
Qed.

Lemma csv_read_field_or_null s :
  csv_read_field (or_null s) = csv_read_field (Some s).
Proof. by destruct s. Qed.

Lemma csv_read_field_next s rest :
  (length s < MAX_LINE)%nat → field_end rest →
  csv_read_field (or_null (csv_escape_field s ++ rest))
  = Some (s, or_null (skip_comma rest)).
Proof.
  intros. rewrite csv_read_field_or_null. by apply csv_read_field_escaped.
Qed.

Lemma csv_read_field_last s :
  (length s < MAX_LINE)%nat →
  csv_read_field (or_null (csv_escape_field s)) = Some (s, None).
Proof.
  intros. rewrite <- (app_nil_r (csv_escape_field s)).
  rewrite csv_read_field_next by (done || by left). done.
Qed.

Lemma field_end_comma r : field_end (COMMA :: r).
Proof. right. eauto. Qed.

Lemma load_record_nonempty pl a f2 f3 dur :
  a ≠ [] →
  match a with [] => pl | _ :: _ => add_track pl a f2 f3 dur end
  = add_track pl a f2 f3 dur.
Proof. by destruct a. Qed.

(** Lines with one to four fields: the fields that are missing are
    empty, and a missing duration is 0. *)
Lemma load_record_fields pl buf a b c d :
  a ≠ [] →
  (length a < MAX_LINE)%nat → (length b < MAX_LINE)%nat →
  (length c < MAX_LINE)%nat → (length d < MAX_LINE)%nat →
  (line_of buf = csv_escape_field a →
     load_record pl buf = Some (add_track pl a [] [] 0))
  ∧ (line_of buf = csv_escape_field a ++ COMMA :: csv_escape_field b →
     load_record pl buf = Some (add_track pl a b [] 0))
  ∧ (line_of buf = csv_escape_field a ++ COMMA :: csv_escape_field b
                   ++ COMMA :: csv_escape_field c →
     load_record pl buf = Some (add_track pl a b c 0))
  ∧ (line_of buf = csv_escape_field a ++ COMMA :: csv_escape_field b
                   ++ COMMA :: csv_escape_field c
                   ++ COMMA :: csv_escape_field d →
     load_record pl buf = Some (add_track pl a b c (atoi d))).
Proof.
  intros Ha La Lb Lc Ld. unfold line_of, load_record.
  assert (Hlast : csv_read_field None = Some ([], None)) by done.
  assert (Hskip : ∀ r, skip_comma (COMMA :: r) = r) by done.
  repeat split; intros ->.
  - rewrite <- csv_read_field_or_null, csv_read_field_last by done.
    rewrite !Hlast. by rewrite load_record_nonempty.
  - rewrite csv_read_field_escaped by (done || apply field_end_comma).
    rewrite Hskip, csv_read_field_last by done.
    rewrite !Hlast. by rewrite load_record_nonempty.
  - rewrite csv_read_field_escaped by (done || apply field_end_comma).
    rewrite Hskip, csv_read_field_next by (done || apply field_end_comma).
    rewrite Hskip, csv_read_field_last by done.
    rewrite !Hlast. by rewrite load_record_nonempty.
  - rewrite csv_read_field_escaped by (done || apply field_end_comma).
    rewrite Hskip, csv_read_field_next by (done || apply field_end_comma).
    rewrite Hskip, csv_read_field_next by (done || apply field_end_comma).
    rewrite Hskip, csv_read_field_last by done.
    by rewrite load_record_nonempty.
Qed.

(** A line whose first field is empty adds nothing. *)
Lemma load_record_skipped pl buf p :
  (length buf < MAX_LINE)%nat →
  csv_read_field (Some (line_of buf)) = Some ([], p) →
  load_record pl buf = Some pl.
Proof.
  intros Hlen Hf1. unfold load_record. fold (line_of buf). rewrite Hf1.
  assert (Hw : within (length buf) (Some (line_of buf))).
  { intros s [= <-]. unfold line_of.
    pose proof (cut_at_length NL (cut_at NUL buf)).
    pose proof (cut_at_length NUL buf). lia. }
  destruct (csv_read_field_safe _ _ Hlen Hw) as (f1 & p1 & Hr & Hw1).
  rewrite Hf1 in Hr. injection Hr as <- <-.
  destruct (csv_read_field_safe _ _ Hlen Hw1) as (f2 & p2 & -> & Hw2).
  destruct (csv_read_field_safe _ _ Hlen Hw2) as (f3 & p3 & -> & Hw3).
  by destruct (csv_read_field_safe _ _ Hlen Hw3) as (f4 & p4 & -> & Hw4).
Qed.

(** C7, for every text that is not empty.  Loading such a text always
    succeeds: no line makes the loader stop or leave its buffers, and
    the value returned is 1.  A line with fewer than four fields is
    loaded with the missing text fields empty and the missing duration
    0; a duration in which [atoi] finds no number is 0; a line whose
    first field is empty adds no track. *)
Theorem load_degrades_gracefully :
  (∀ pl text, text ≠ [] →
     ∃ pl', load_playlist_csv pl (Some text) = Some (1, pl'))
  ∧ (∀ pl buf a b c d,
       a ≠ [] →
       (length a < MAX_LINE)%nat → (length b < MAX_LINE)%nat →
       (length c < MAX_LINE)%nat → (length d < MAX_LINE)%nat →
       (line_of buf = csv_escape_field a →
          load_record pl buf = Some (add_track pl a [] [] 0))
       ∧ (line_of buf = csv_escape_field a ++ COMMA :: csv_escape_field b →
          load_record pl buf = Some (add_track pl a b [] 0))
       ∧ (line_of buf = csv_escape_field a ++ COMMA :: csv_escape_field b
                        ++ COMMA :: csv_escape_field c →
          load_record pl buf = Some (add_track pl a b c 0))
       ∧ (line_of buf = csv_escape_field a ++ COMMA :: csv_escape_field b
                        ++ COMMA :: csv_escape_field c
                        ++ COMMA :: csv_escape_field d →
          ¬ starts_number d →
          load_record pl buf = Some (add_track pl a b c 0)))
  ∧ (∀ pl buf p,
       (length buf < MAX_LINE)%nat →
       csv_read_field (Some (line_of buf)) = Some ([], p) →
       load_record pl buf = Some pl).
Proof.
  split; [|split].
  - intros pl text Hne.
    destruct (load_playlist_csv_frame text) as (r & d & Hd).
    destruct (Hd pl) as (pl' & Hload & _). exists pl'.
    rewrite Hload. unfold load_playlist_csv in Hload.
    destruct (fgets MAX_LINE text) as [[buf rest]|] eqn:Hg.
    + destruct (load_records pl _); congruence.
    + by apply fgets_none in Hg.
  - intros pl buf a b c d Ha La Lb Lc Ld.
    destruct (load_record_fields pl buf a b c d Ha La Lb Lc Ld)
      as (H1 & H2 & H3 & H4).
    repeat split; try done.
    intros Hline Hno. rewrite <- (atoi_unparsable d Hno). by apply H4.
  - apply load_record_skipped.
Qed.

Lemma skip_spaces_app ws s :
  Forall (λ c, isspace c = true) ws → skip_spaces (ws ++ s) = skip_spaces s.
Proof. induction 1 as [|c ws Hc _ IH]; [done|]. simpl. by rewrite Hc. Qed.

Lemma starts_number_check s : starts_number s → starts_number_b s = true.
Proof.
  intros (ws & sg & d & rest & -> & Hws & Hsg & Hd). unfold starts_number_b.
  rewrite skip_spaces_app by done.
  destruct Hsg as [-> | [-> | ->]]; cbn [app skip_spaces].
  - rewrite (isdigit_not_space d Hd).
    by rewrite (isdigit_neq d "-" Hd eq_refl), (isdigit_neq d "+" Hd eq_refl).
  - done.
  - done.
Qed.

Lemma load_degrades_gracefully_witness :
  (∃ pl', load_playlist_csv init_playlist (Some (lit "abc")) = Some (1, pl'))
  ∧ load_record init_playlist (lit "Song A,Artist X" ++ [NL])
    = Some (add_track init_playlist (lit "Song A") (lit "Artist X") [] 0)
  ∧ load_record init_playlist (lit "Song A,Artist X,Album 1,abc" ++ [NL])
    = Some (add_track init_playlist (lit "Song A") (lit "Artist X")
              (lit "Album 1") 0)
  ∧ load_record three_tracks (lit ",Artist X,Album 1,125" ++ [NL])
    = Some three_tracks.
Proof.
  destruct load_degrades_gracefully as (Hload & Hfields & Hskip).
  split; [|split; [|split]].
  - apply Hload. discriminate.
  - destruct (Hfields init_playlist (lit "Song A,Artist X" ++ [NL])
                (lit "Song A") (lit "Artist X") [] [])
      as (_ & H2 & _); [discriminate|vm_compute; lia..|].
    apply H2. by vm_compute.
  - destruct (Hfields init_playlist (lit "Song A,Artist X,Album 1,abc" ++ [NL])
                (lit "Song A") (lit "Artist X") (lit "Album 1") (lit "abc"))
      as (_ & _ & _ & H4); [discriminate|vm_compute; lia..|].
    apply H4; [by vm_compute|].
    intros Hn%starts_number_check. by vm_compute in Hn.
  - apply (Hskip three_tracks _ (Some (lit "Artist X,Album 1,125")));
      [vm_compute; lia|by vm_compute].
Defined.

(** C7 as stated fails on the empty text: the loader returns 0 for it,
    as it does for a file that it cannot open. *)
Lemma load_empty_text :
  load_playlist_csv init_playlist (Some []) = Some (0, init_playlist)
  ∧ load_playlist_csv init_playlist None = Some (0, init_playlist).
Proof. done. Qed.

(** ** The header line *)

Lemma is_substring_snoc n l c :
  c ∉ n → n ≠ [] → is_substring n (l ++ [c]) ↔ is_substring n l.
Proof.
  intros Hc Hn. split.
  - intros (pre & post & Heq).
    destruct post as [|x post _] using rev_ind.
    + rewrite app_nil_r in Heq.
      destruct n as [|y n _] using rev_ind; [done|].
      rewrite app_assoc in Heq. apply app_inj_tail in Heq as [_ ->].
      exfalso. apply Hc. apply elem_of_app. right. left.
    + rewrite !app_assoc in Heq. apply app_inj_tail in Heq as [-> _].
      exists pre, post. by rewrite app_assoc.
  - intros (pre & post & ->). exists pre, (post ++ [c]).
    by rewrite <- !app_assoc.
Qed.

(** The test that the loader makes on the buffer of the first line. *)
Lemma header_test line :
  NL ∉ line → NUL ∉ line →
  negb (nonnull (strstr (cut_at NUL (line ++ [NL])) (lit "title")))
  || negb (nonnull (strstr (cut_at NUL (line ++ [NL])) (lit "artist"))) = false
  ↔ is_header line.
Proof.
  intros Hnl Hnul. unfold is_header.
  rewrite cut_at_absent.
  2:{ rewrite elem_of_app, list_elem_of_singleton. intros [?|?]; done. }
  rewrite orb_false_iff, !negb_false_iff, !strstr_spec.
  rewrite !is_substring_snoc; [done|..]; try done;
    by apply not_elem_of_strchr.
Qed.

Lemma header_test_last line :
  NUL ∉ line →
  negb (nonnull (strstr (cut_at NUL line) (lit "title")))
  || negb (nonnull (strstr (cut_at NUL line) (lit "artist"))) = false
  ↔ is_header line.
Proof.
  intros Hnul. unfold is_header. rewrite cut_at_absent by done.
  by rewrite orb_false_iff, !negb_false_iff, !strstr_spec.
Qed.

Lemma load_playlist_csv_first_line pl buf rest text :
  fgets MAX_LINE text = Some (buf, rest) →
  load_playlist_csv pl (Some text)
  = (λ pl', (1, pl')) <$>
      load_records pl
        (if negb (nonnull (strstr (cut_at NUL buf) (lit "title")))
            || negb (nonnull (strstr (cut_at NUL buf) (lit "artist")))
         then text else rest).
Proof.
  intros Hg. unfold load_playlist_csv. rewrite Hg. cbv zeta.
  by destruct (load_records pl _).
Qed.

(** C8, for a first line that fits the line buffer.  The saver writes
    the header line first.  The loader skips the first line of a text
    when both words, title and artist, occur in it, and loads it as a
    record when they do not; this holds when the line has no NUL byte
    and, with its newline, at most [MAX_LINE - 1] bytes, whether a
    newline ends it or the text ends with it. *)
Theorem header_sniffing :
  (∀ pl, ∃ body,
     save_playlist_csv pl true
     = (1, Some (lit "title,artist,album,duration_seconds" ++ NL :: body)))
  ∧ (∀ pl line rest,
       NL ∉ line → NUL ∉ line → (length line + 1 < MAX_LINE)%nat →
       (is_header line →
          load_playlist_csv pl (Some (line ++ NL :: rest))
          = (λ pl', (1, pl')) <$> load_records pl rest)
       ∧ (¬ is_header line →
          load_playlist_csv pl (Some (line ++ NL :: rest))
          = (λ pl', (1, pl')) <$> load_records pl (line ++ NL :: rest)))
  ∧ (∀ pl line,
       line ≠ [] → NL ∉ line → NUL ∉ line → (length line < MAX_LINE)%nat →
       (is_header line → load_playlist_csv pl (Some line) = Some (1, pl))
       ∧ (¬ is_header line →
          load_playlist_csv pl (Some line)
          = (λ pl', (1, pl')) <$> load_records pl line)).
Proof.
  split; [|split].
  - intros pl. exists (write_records (items pl)).
    unfold save_playlist_csv, csv_header. by rewrite <- app_assoc.
  - intros pl line rest Hnl Hnul Hlen.
    pose proof (fgets_line line rest Hnl Hlen) as Hg.
    rewrite (load_playlist_csv_first_line _ _ _ _ Hg).
    pose proof (header_test line Hnl Hnul) as Htest.
    destruct (negb _ || negb _); split; intros Hh; try done.
    + apply Htest in Hh. done.
    + exfalso. apply Hh. by apply Htest.
  - intros pl line Hne Hnl Hnul Hlen.
    assert (Hg : fgets MAX_LINE line = Some (line, [])).
    { unfold fgets. destruct line as [|c l] eqn:Hl; [done|]. rewrite <- Hl in *.
      f_equal. apply fgets_bytes_last; [done|unfold MAX_LINE in *; lia]. }
    rewrite (load_playlist_csv_first_line _ _ _ _ Hg).
    pose proof (header_test_last line Hnul) as Htest.
    destruct (negb _ || negb _); split; intros Hh; try done.
    + apply Htest in Hh. done.
    + exfalso. apply Hh. by apply Htest.
Qed.

Lemma header_sniffing_witness :
  load_playlist_csv init_playlist
    (Some (lit "my title, my artist" ++ NL :: lit "Song A,Artist X,Album 1,125"))
  = (λ pl', (1, pl')) <$>
      load_records init_playlist (lit "Song A,Artist X,Album 1,125")
  ∧ load_playlist_csv init_playlist (Some (lit "Song A,Artist X" ++ NL :: []))
    = (λ pl', (1, pl')) <$>
        load_records init_playlist (lit "Song A,Artist X" ++ NL :: [])
  ∧ load_playlist_csv three_tracks (Some (lit "title,artist"))
    = Some (1, three_tracks)
  ∧ load_playlist_csv init_playlist (Some (lit "Song A"))
    = (λ pl', (1, pl')) <$> load_records init_playlist (lit "Song A").
Proof.
  destruct header_sniffing as (_ & Hline & Hlast).
  assert (Hh1 : is_header (lit "my title, my artist")).
  { split; [by exists (lit "my "), (lit ", my artist")
           |by exists (lit "my title, my "), []]. }
  assert (Hh2 : ¬ is_header (lit "Song A,Artist X")).
  { intros [_ H]. apply strstr_spec in H. by vm_compute in H. }
  assert (Hh3 : is_header (lit "title,artist")).
  { split; [by exists [], (lit ",artist")|by exists (lit "title,"), []]. }
  assert (Hh4 : ¬ is_header (lit "Song A")).
  { intros [_ H]. apply strstr_spec in H. by vm_compute in H. }
  split; [|split; [|split]].
  - apply (Hline init_playlist (lit "my title, my artist")); try done;
      try (apply not_elem_of_strchr; by vm_compute). vm_compute; lia.
  - apply (Hline init_playlist (lit "Song A,Artist X") []); try done;
      try (apply not_elem_of_strchr; by vm_compute). vm_compute; lia.
  - apply (Hlast three_tracks (lit "title,artist")); try done;
      try (apply not_elem_of_strchr; by vm_compute). vm_compute; lia.
  - apply (Hlast init_playlist (lit "Song A")); try done;
      try (apply not_elem_of_strchr; by vm_compute). vm_compute; lia.
Defined.

(** C8 as stated fails on a first line longer than the line buffer:
    both words occur in [long_first_line], and the loader still loads
    its two parts as two records. *)
Lemma header_sniffing_long_line :
  is_header long_first_line
  ∧ (NL ∉ long_first_line)
  ∧ load_playlist_csv init_playlist (Some (long_first_line ++ [NL]))
    = Some (1, mkPlaylist [mkTrack (replicate 1023 "a"%char) [] [] 0;
                           mkTrack (lit "title") (lit "artist") [] 0] 32)
  ∧ load_records init_playlist [] = Some init_playlist.
Proof.
  split; [|split; [|split]].
  - split; [by exists (replicate 1023 "a"%char), (lit ",artist")
           |by exists (replicate 1023 "a"%char ++ lit "title,"), []].
  - apply not_elem_of_strchr. by vm_compute.
  - by vm_compute.
  - done.
Qed.

(** ** Sorting by duration *)

Lemma Sorted_adjacent {A} (R : A → A → Prop) (l : list A) :
  Sorted R l ↔ ∀ i a b, l !! i = Some a → l !! S i = Some b → R a b.
Proof.
  induction l as [|x l IH].
  - split; [intros _ i a b H; done|constructor].
  - split.
    + intros Hs. apply Sorted_inv in Hs as [Hs Hhd].
      intros [|i] a b Ha Hb; simpl in *.
      * injection Ha as <-. destruct l as [|y l]; [done|].
        injection Hb as <-. by apply HdRel_inv in Hhd.
      * by apply (proj1 IH Hs i).
    + intros H. constructor.
      * apply IH. intros i a b Ha Hb. by apply (H (S i)).
      * destruct l as [|y l]; constructor. by apply (H 0%nat).
Qed.

(** The subtraction of [cmp_duration] never calls two tracks each
    greater than the other, overflow or not. *)
Lemma cmp_duration_total a b : 0 < cmp_duration a b → cmp_duration b a <= 0.
Proof.
  unfold cmp_duration, wrap_int.
  set (z := duration a - duration b).
  replace (duration b - duration a) with (- z) by (unfold z; lia).
  intros H.
  pose proof (Z.mod_pos_bound (z + 2 ^ 31) (2 ^ 32) eq_refl) as Hb.
  pose proof (Z.div_mod (z + 2 ^ 31) (2 ^ 32)) as Hdm.
  set (q := (z + 2 ^ 31) / 2 ^ 32) in *.
  set (r := (z + 2 ^ 31) mod 2 ^ 32) in *.
  assert (Hm : (- z + 2 ^ 31) mod 2 ^ 32 = 2 ^ 32 - r).
  { symmetry. apply (Z.mod_unique _ _ (- q)); lia. }
  rewrite Hm. lia.
Qed.

Lemma qsort_insert_perm cmp x l : qsort_insert cmp x l ≡ₚ x :: l.
Proof.
  induction l as [|y l IH]; simpl; [done|].
  destruct (cmp x y <=? 0); [done|]. rewrite IH. apply Permutation_swap.
Qed.

Lemma qsort_perm cmp l : l ≡ₚ qsort cmp l.
Proof.
  induction l as [|x l IH]; simpl; [done|].
  rewrite qsort_insert_perm. by constructor.
Qed.

Lemma qsort_insert_sorted cmp x l :
  (∀ a b, 0 < cmp a b → cmp b a <= 0) →
  Sorted (λ a b, cmp a b <= 0) l →
  Sorted (λ a b, cmp a b <= 0) (qsort_insert cmp x l).
Proof.
  intros Htot. induction l as [|y l IH]; intros Hs; simpl.
  - by repeat constructor.
  - apply Sorted_inv in Hs as [Hs Hhd].
    destruct (Z.leb_spec (cmp x y) 0).
    + by repeat constructor.
    + constructor; [by apply IH|].
      destruct l as [|z l]; simpl.
      * constructor. apply Htot. lia.
      * apply HdRel_inv in Hhd.
        destruct (cmp x z <=? 0); constructor; [apply Htot; lia|done].
Qed.

(** The sort of the model meets the contract of [qsort] for
    [cmp_duration] on every array. *)
Lemma qsort_cmp_duration l : qsort_result cmp_duration l (qsort cmp_duration l).
Proof.
  split; [apply qsort_perm|]. apply Sorted_adjacent.
  induction l as [|x l IH]; simpl; [constructor|].
  apply qsort_insert_sorted; [apply cmp_duration_total|done].
Qed.

(** Where the subtraction cannot overflow, any result of [qsort] is in
    ascending order of duration. *)
Lemma qsort_result_ascending input output :
  Forall (λ t, 0 <= duration t <= INT_MAX) input →
  qsort_result cmp_duration input output →
  ascending_durations output.
Proof.
  intros Hall [Hperm Hadj] i x y Hx Hy.
  rewrite Hperm in Hall. rewrite Forall_forall in Hall.
  pose proof (Hall x (list_elem_of_lookup_2 _ _ _ Hx)) as Hdx.
  pose proof (Hall y (list_elem_of_lookup_2 _ _ _ Hy)) as Hdy.
  specialize (Hadj i x y Hx Hy). unfold cmp_duration in Hadj.
  rewrite wrap_int_id in Hadj; [lia|].
  unfold int_range, INT_MIN, INT_MAX in *. lia.
Qed.

Lemma sort_by_duration_ascending pl :
  Forall (λ t, 0 <= duration t <= INT_MAX) (items pl) →
  items pl ≡ₚ items (sort_by_duration pl)
  ∧ ascending_durations (items (sort_by_duration pl)).
Proof.
  intros Hall. split; [apply qsort_perm|].
  eapply qsort_result_ascending; [exact Hall|apply qsort_cmp_duration].
Qed.

(** C5, at a playlist on which the sort fails.  The durations
    2147483647 and -2 are values of an [int], and [atoi] stores them
    from the user's input.  Their difference does not fit an [int]:
    [cmp_duration] returns a negative number for the pair, so the sort
    leaves 2147483647 in front of -2, and so does every sort that meets
    the contract of [qsort].  The result is not in ascending order. *)
Theorem sort_by_duration_overflow :
  Forall track_ok (items extremes)
  ∧ duration <$> items extremes = [2147483647; -2]
  ∧ duration <$> items (sort_by_duration extremes) = [2147483647; -2]
  ∧ ¬ ascending_durations (items (sort_by_duration extremes))
  ∧ ∀ out, qsort_result cmp_duration (items extremes) out → out = items extremes.
Proof.
  split; [|split; [done|split; [done|split]]].
  - sample_track.
  - intros H. specialize (H 0%nat _ _ eq_refl eq_refl). by vm_compute in H.
  - intros out [Hperm Hadj].
    apply Permutation_length_2_inv in Hperm as [->| ->]; [done|].
    specialize (Hadj 0%nat _ _ eq_refl eq_refl). by vm_compute in Hadj.
Qed.

(** ** Shuffle *)

Lemma swap_length a i j : length (swap a i j) = length a.
Proof.
  unfold swap. destruct (a !! i), (a !! j); try done.
  by rewrite !length_insert.
Qed.





Lemma shuffle_loop_length rnd k i a : length (shuffle_loop rnd k i a) = length a.
Proof.
  revert k a. induction i as [|i IH]; intros k a; simpl; [done|].
  by rewrite IH, swap_length.
Qed.












(** * Further properties of the program *)

(** ** The capacity of the array *)

(** [add_track] on a playlist in a state that the program builds: the
    store at [items[size]] is inside the array, the track is appended
    after the tracks that were there, the capacity does not shrink and
    the state stays one that the program builds. *)
Theorem add_track_appends (pl : Playlist) (ti ar al : list ascii) (d : Z) :
  playlist_ok pl →
  (size (ensure_capacity pl) < cap (ensure_capacity pl))%nat
  ∧ items (add_track pl ti ar al d) = items pl ++ [mkTrack ti ar al d]
  ∧ size (add_track pl ti ar al d) = S (size pl)
  ∧ (cap pl ≤ cap (add_track pl ti ar al d))%nat
  ∧ playlist_ok (add_track pl ti ar al d).
Proof.
  intros Hok. split; [by apply ensure_capacity_room|].
  split; [apply add_track_items|]. split; [|split; [|by apply add_track_ok]].
  - unfold size. rewrite add_track_items, length_app. simpl. lia.
  - unfold add_track, ensure_capacity. destruct (_ <? _)%nat; simpl; lia.
Qed.

Lemma add_track_appends_witness :
  items (add_track three_tracks (lit "D") (lit "w") (lit "s") 4)
  = items three_tracks ++ [mkTrack (lit "D") (lit "w") (lit "s") 4]
  ∧ playlist_ok (add_track three_tracks (lit "D") (lit "w") (lit "s") 4).
Proof.
  destruct (add_track_appends three_tracks (lit "D") (lit "w") (lit "s") 4)
    as (_ & Hitems & _ & _ & Hok).
  - unfold playlist_ok. vm_compute. lia.
  - by split.
Defined.

Lemma qsort_length cmp l : length (qsort cmp l) = length l.
Proof. symmetry. apply Permutation_length, qsort_perm. Qed.

Lemma remove_track_at_ok pl idx :
  playlist_ok pl → playlist_ok (remove_track_at pl idx).
Proof.
  intros [Hpos Hle]. unfold remove_track_at.
  destruct (Nat.leb_spec (size pl) idx); [done|].
  unfold playlist_ok, size in *. simpl.
  rewrite length_take, shift_left_length. lia.
Qed.

(** A property of the playlist that every line keeps is kept by the
    whole loop. *)
Lemma load_records_invariant (P : Playlist → Prop) :
  (∀ pl buf pl', P pl → (length buf < MAX_LINE)%nat →
     load_record pl buf = Some pl' → P pl') →
  ∀ f pl pl', P pl → load_records pl f = Some pl' → P pl'.
Proof.
  intros Hstep f. remember (length f) as n eqn:Hn. revert f Hn.
  induction n as [n IH] using lt_wf_ind. intros f -> pl pl' HP.
  rewrite load_records_eq.
  destruct (fgets MAX_LINE f) as [[buf f']|] eqn:Hg; [|by intros [= <-]].
  pose proof (fgets_some _ _ _ Hg) as [Heq Hlen].
  destruct (load_record pl buf) as [pl1|] eqn:Hrec; [|done].
  apply (IH (length f')) with (f := f'); [|done|].
  - subst f. rewrite length_app. lia.
  - apply (Hstep pl buf); [done|lia|done].
Qed.

Lemma load_playlist_csv_invariant (P : Playlist → Prop) :
  (∀ pl buf pl', P pl → (length buf < MAX_LINE)%nat →
     load_record pl buf = Some pl' → P pl') →
  ∀ f pl r pl', P pl → load_playlist_csv pl f = Some (r, pl') → P pl'.
Proof.
  intros Hstep f pl r pl' HP. unfold load_playlist_csv.
  destruct f as [text|]; [|by intros [= _ <-]].
  destruct (fgets MAX_LINE text) as [[buf rest]|]; [|by intros [= _ <-]].
  cbv zeta. destruct (load_records pl _) as [pl1|] eqn:Hload; [|done].
  intros [= _ <-]. by apply (load_records_invariant P Hstep _ _ _ HP Hload).
Qed.

Lemma load_record_ok pl buf pl' :
  playlist_ok pl → load_record pl buf = Some pl' → playlist_ok pl'.
Proof.
  intros Hok. unfold load_record.
  repeat (destruct (csv_read_field _) as [[? ?]|]; [|done]).
  intros [= <-]. destruct l; [done|by apply add_track_ok].
Qed.

Lemma cmd_add_cases pl stdin :
  (cmd_add pl stdin).1 = pl
  ∨ ∃ c t ar al d,
      (cmd_add pl stdin).1 = add_track pl (c :: t) ar al d
      ∧ (read_input_line stdin).1 = Some (c :: t).
Proof.
  unfold cmd_add.
  destruct (read_input_line stdin) as [title in1].
  destruct (read_input_line in1) as [artist in2].
  destruct (read_input_line in2) as [album in3].
  destruct (read_input_line in3) as [dur_s in4].
  destruct title as [[|c t]|]; simpl; eauto 10.
Qed.

(** Every operation of the program takes a state in which the size is
    within a positive capacity to another such state: removing, the
    shuffle, the three sorts, clearing, the [add] command, and loading
    any file. *)
Theorem playlist_ok_preserved (pl : Playlist) :
  playlist_ok pl →
  (∀ idx, playlist_ok (remove_track_at pl idx))
  ∧ (∀ rnd, playlist_ok (shuffle_playlist rnd pl))
  ∧ playlist_ok (sort_by_duration pl)
  ∧ playlist_ok (sort_by_title pl)
  ∧ playlist_ok (sort_by_artist pl)
  ∧ playlist_ok (cmd_clear pl)
  ∧ (∀ n, playlist_ok (cmd_remove pl n))
  ∧ (∀ stdin, playlist_ok (cmd_add pl stdin).1)
  ∧ (∀ f r pl', load_playlist_csv pl f = Some (r, pl') → playlist_ok pl').
Proof.
  intros Hok.
  assert (Hsame : ∀ l, length l = size pl → playlist_ok (mkPlaylist l (cap pl))).
  { intros l Hl. destruct Hok. unfold playlist_ok, size in *. simpl. lia. }
  split; [intros; by apply remove_track_at_ok|].
  split.
  { intros rnd. unfold shuffle_playlist. destruct (_ <? _)%nat; [done|].
    apply Hsame, shuffle_loop_length. }
  split; [apply Hsame, qsort_length|].
  split; [apply Hsame, qsort_length|].
  split; [apply Hsame, qsort_length|].
  split.
  { destruct Hok. unfold playlist_ok, cmd_clear, size. simpl. lia. }
  split.
  { intros n. unfold cmd_remove. destruct (_ <? 0); [done|].
    by apply remove_track_at_ok. }
  split.
  { intros stdin.
    destruct (cmd_add_cases pl stdin) as [->|(c & t & ar & al & d & -> & _)];
      [done|]. by apply add_track_ok. }
  intros f r pl'. apply load_playlist_csv_invariant; [|done].
  intros ? ? ? ? _. by apply load_record_ok.
Qed.

Lemma playlist_ok_preserved_witness :
  playlist_ok (remove_track_at three_tracks 1)
  ∧ playlist_ok (sort_by_title three_tracks)
  ∧ playlist_ok (cmd_add three_tracks (lit "D" ++ [NL])).1.
Proof.
  destruct (playlist_ok_preserved three_tracks)
    as (Hrm & _ & _ & Hsort & _ & _ & _ & Hadd & _).
  - unfold playlist_ok. vm_compute. lia.
  - split; [apply Hrm|split; [exact Hsort|apply Hadd]].
Defined.

(** Removing the track that was just added gives back the tracks that
    were there before. *)
Theorem remove_added_track (pl : Playlist) (ti ar al : list ascii) (d : Z) :
  items (remove_track_at (add_track pl ti ar al d) (size pl)) = items pl.
Proof.
  rewrite remove_track_at_items.
  - rewrite add_track_items. unfold size.
    rewrite take_app_length, drop_ge; [by rewrite app_nil_r|].
    rewrite length_app. simpl. lia.
  - unfold size. rewrite add_track_items, length_app. simpl. lia.
Qed.

(** ** Trimming and reading a line of input *)

Lemma trim_end_spec s len :
  (len ≤ length s)%nat →
  (trim_end s len ≤ len)%nat
  ∧ (∀ i c, (trim_end s len ≤ i < len)%nat → s !! i = Some c →
       isspace c = true)
  ∧ (∀ c, s !! (trim_end s len - 1)%nat = Some c → (0 < trim_end s len)%nat →
       isspace c = false).
Proof.
  induction len as [|len IH]; intros Hlen; simpl.
  - split; [done|]. split; intros; lia.
  - destruct (lookup_lt_is_Some_2 s len) as [c Hc]; [lia|]. rewrite Hc.
    destruct (isspace c) eqn:Hsp.
    + destruct IH as (Hle & Hblank & Hlast); [lia|].
      split; [lia|]. split; [|done].
      intros i d Hi Hd. destruct (decide (i = len)) as [->|Hne].
      * congruence.
      * apply (Hblank i d); [lia|done].
    + split; [done|]. split; [intros; lia|].
      intros d Hd _. replace (S len - 1)%nat with len in Hd by lia. congruence.
Qed.

Lemma skip_spaces_fixed s :
  (∀ c, head s = Some c → isspace c = false) → skip_spaces s = s.
Proof. destruct s as [|c s]; [done|]. intros H. simpl. by rewrite (H c). Qed.

Lemma skip_spaces_first s c : head (skip_spaces s) = Some c → isspace c = false.
Proof.
  destruct (skip_spaces s) as [|d s'] eqn:Hs; [done|].
  intros [= <-]. by apply (skip_spaces_head d s' s).
Qed.

Lemma trim_end_fixed s :
  (∀ c, last s = Some c → isspace c = false) → trim_end s (length s) = length s.
Proof.
  intros H. destruct (length s) as [|n] eqn:Hn; [done|]. simpl.
  rewrite last_lookup, Hn in H. simpl in H.
  destruct (s !! n) as [c|]; [|done]. by rewrite (H c).
Qed.

(** The text around the result of [trim], and the ends of the result. *)
Lemma trim_frame (s : list ascii) :
  (∃ ws1 ws2, s = ws1 ++ trim s ++ ws2 ∧ blank ws1 ∧ blank ws2)
  ∧ (∀ c, head (trim s) = Some c → isspace c = false)
  ∧ (∀ c, last (trim s) = Some c → isspace c = false)
  ∧ trim (trim s) = trim s.
Proof.
  unfold trim. cbv zeta.
  destruct (skip_spaces_split s) as (ws1 & Heq & Hws1).
  set (s' := skip_spaces s) in *.
  destruct (trim_end_spec s' (length s')) as (Hle & Hblank & Hlast); [done|].
  set (k := trim_end s' (length s')) in *.
  assert (Hhead : ∀ c, head (take k s') = Some c → isspace c = false).
  { intros c Hc. apply (skip_spaces_first s). fold s'.
    rewrite head_lookup in *. destruct k; [done|].
    by rewrite lookup_take_lt in Hc by lia. }
  assert (Hend : ∀ c, last (take k s') = Some c → isspace c = false).
  { intros c Hc. rewrite last_lookup, length_take in Hc.
    replace (k `min` length s')%nat with k in Hc by lia.
    destruct k as [|k']; [done|]. simpl in Hc.
    rewrite lookup_take_lt in Hc by lia.
    apply Hlast; [|lia]. by replace (S k' - 1)%nat with k' by lia. }
  split; [|split; [done|split; [done|]]].
  - exists ws1, (drop k s'). split; [by rewrite take_drop|].
    split; [done|]. apply Forall_lookup. intros i c Hc.
    rewrite lookup_drop in Hc. apply (Hblank (k + i)%nat c); [|done].
    apply lookup_lt_Some in Hc. lia.
  - rewrite (skip_spaces_fixed _ Hhead), (trim_end_fixed _ Hend).
    by rewrite firstn_all.
Qed.

(** [trim] removes white space at both ends and nothing else: the text
    is its result between two runs of white space, the result neither
    starts nor ends with white space, and trimming it again changes
    nothing. *)
Theorem trim_spec (s : list ascii) :
  (∃ ws1 ws2, s = ws1 ++ trim s ++ ws2 ∧ blank ws1 ∧ blank ws2)
  ∧ (∀ c, head (trim s) = Some c → isspace c = false)
  ∧ (∀ c, last (trim s) = Some c → isspace c = false)
  ∧ trim (trim s) = trim s.
Proof.
  destruct (trim_frame s) as (Hframe & Hhead & Hlast & Hidem).
  split; [exact Hframe|]. split; [exact Hhead|]. split; [exact Hlast|exact Hidem].
Qed.

Lemma cut_at_elem c s x : x ∈ cut_at c s → x ∈ s ∧ x ≠ c.
Proof.
  induction s as [|d s IH]; simpl; [intros H; by apply elem_of_nil in H|].
  destruct (Ascii.eqb_spec d c) as [->|Hne]; [intros H; by apply elem_of_nil in H|].
  rewrite !elem_of_cons. intros [->|H]; [by split; [left|]|].
  destruct (IH H). split; [by right|done].
Qed.

Lemma cut_at_app_absent c s t : c ∉ s → cut_at c (s ++ t) = s ++ cut_at c t.
Proof.
  induction s as [|d s IH]; [done|]. intros [Hne Hs]%not_elem_of_cons. simpl.
  destruct (Ascii.eqb_spec d c) as [->|_]; [done|]. by rewrite IH.
Qed.

Lemma cut_at_app_present c s t : c ∈ s → cut_at c (s ++ t) = cut_at c s.
Proof.
  induction s as [|d s IH]; [intros H; by apply elem_of_nil in H|].
  simpl. destruct (Ascii.eqb_spec d c) as [->|Hne]; [done|].
  intros [?|H]%elem_of_cons; [congruence|]. by rewrite IH.
Qed.

Lemma strip_newline_snoc s : strip_newline (s ++ [NL]) = s.
Proof.
  unfold strip_newline. rewrite length_app. simpl.
  replace (length s + 1)%nat with (S (length s)) by lia. simpl.
  rewrite Nat.sub_0_r, lookup_app_r by lia. rewrite Nat.sub_diag. simpl.
  by rewrite take_app_length.
Qed.

Lemma strip_newline_absent s : NL ∉ s → strip_newline s = s.
Proof.
  intros Hnl. unfold strip_newline. destruct (length s); [done|].
  destruct (s !! _) as [c|] eqn:Hc; [|done].
  destruct (Ascii.eqb_spec c NL) as [->|_]; [|done].
  exfalso. apply Hnl. by eapply list_elem_of_lookup_2.
Qed.

Lemma strip_newline_elem s x : x ∈ strip_newline s → x ∈ s.
Proof.
  unfold strip_newline. destruct (length s); [done|].
  destruct (s !! _) as [c|]; [|done]. destruct (Ascii.eqb c NL); [|done].
  intros (i & Hi & _)%elem_of_take. by eapply list_elem_of_lookup_2.
Qed.

Lemma strip_newline_length s : (length (strip_newline s) ≤ length s)%nat.
Proof.
  unfold strip_newline. destruct (length s) eqn:Hn; [lia|].
  destruct (s !! _) as [c|]; [|lia]. destruct (Ascii.eqb c NL); [|lia].
  rewrite length_take. lia.
Qed.

(** A buffer that [fgets] filled holds a newline at its end or nowhere. *)
Lemma fgets_bytes_newline n f l r :
  fgets_bytes n f = (l, r) → NL ∉ l ∨ ∃ l', l = l' ++ [NL] ∧ NL ∉ l'.
Proof.
  revert f l r. induction n as [|n IH]; intros f l r.
  - destruct f; simpl; intros [= <- <-]; left; apply not_elem_of_nil.
  - destruct f as [|c f]; cbn [fgets_bytes].
    + intros [= <- <-]; left; apply not_elem_of_nil.
    + destruct (Ascii.eqb_spec c NL) as [->|Hne].
      * intros [= <- <-]. right. exists []. split; [done|apply not_elem_of_nil].
      * destruct (fgets_bytes n f) as [l0 r0] eqn:Hrec. intros [= <- <-].
        destruct (IH _ _ _ Hrec) as [Hno|(l' & -> & Hno)].
        -- left. by apply not_elem_of_cons.
        -- right. exists (c :: l'). split; [done|by apply not_elem_of_cons].
Qed.

Lemma line_of_buffer buf :
  (NL ∉ buf ∨ ∃ l', buf = l' ++ [NL] ∧ NL ∉ l') →
  (NL ∉ strip_newline (cut_at NUL buf))
  ∧ (NUL ∉ strip_newline (cut_at NUL buf)).
Proof.
  intros Hbuf. split.
  - destruct Hbuf as [Hno|(l' & -> & Hno)].
    + intros H%strip_newline_elem%cut_at_elem. tauto.
    + destruct (nonnull (strchr l' NUL)) eqn:Hb.
      * apply strchr_spec in Hb. rewrite cut_at_app_present by done.
        intros H%strip_newline_elem%cut_at_elem. tauto.
      * rewrite cut_at_app_absent by (by apply not_elem_of_strchr).
        change (cut_at NUL [NL]) with [NL]. by rewrite strip_newline_snoc.
  - intros H%strip_newline_elem%cut_at_elem. tauto.
Qed.

Lemma trim_elem s x : x ∈ trim s → x ∈ s.
Proof.
  destruct (trim_frame s) as ((ws1 & ws2 & Heq & _) & _).
  intros H. rewrite Heq, !elem_of_app. tauto.
Qed.

Lemma trim_length s : (length (trim s) ≤ length s)%nat.
Proof.
  destruct (trim_frame s) as ((ws1 & ws2 & Heq & _) & _).
  rewrite Heq at 2. rewrite !length_app. lia.
Qed.

Lemma trim_end_app s ws :
  blank ws → (∀ c, last s = Some c → isspace c = false) →
  trim_end (s ++ ws) (length (s ++ ws)) = length s.
Proof.
  unfold blank. intros Hws Hs. induction ws as [|c ws IH] using rev_ind.
  - rewrite app_nil_r. by apply trim_end_fixed.
  - rewrite Forall_app, Forall_singleton in Hws. destruct Hws as [Hws Hc].
    specialize (IH Hws).
    rewrite app_assoc, length_app. simpl.
    replace (length (s ++ ws) + 1)%nat with (S (length (s ++ ws))) by lia.
    cbn [trim_end]. rewrite lookup_app_r by lia. rewrite Nat.sub_diag. simpl.
    rewrite Hc. clear Hc.
    assert (Hext : ∀ n, (n ≤ length (s ++ ws))%nat →
              trim_end ((s ++ ws) ++ [c]) n = trim_end (s ++ ws) n).
    { induction n as [|n IHn]; intros Hn; [done|]. simpl.
      rewrite lookup_app_l by lia.
      destruct ((s ++ ws) !! n) as [d|]; [|done].
      destruct (isspace d); [apply IHn; lia|done]. }
    by rewrite Hext.
Qed.

(** Trimming a text that is framed by white space gives the text. *)
Lemma trim_framed ws1 text ws2 :
  blank ws1 → blank ws2 →
  (∀ c, head text = Some c → isspace c = false) →
  (∀ c, last text = Some c → isspace c = false) →
  trim (ws1 ++ text ++ ws2) = text.
Proof.
  intros H1 H2 Hh Hl. unfold trim. cbv zeta. rewrite skip_spaces_app by done.
  destruct text as [|c text].
  - simpl. assert (skip_spaces ws2 = []) as ->; [|done].
    clear -H2. induction H2 as [|c ws Hc _ IH]; [done|]. simpl. by rewrite Hc.
  - rewrite skip_spaces_fixed.
    2:{ intros d [= <-]. by apply Hh. }
    rewrite trim_end_app by done. by rewrite take_app_length.
Qed.

(** The cases of [read_input_line]. *)
Lemma read_input_line_cases :
  read_input_line [] = (None, [])
  ∧ (∀ stdin, stdin ≠ [] → ∃ line rest,
       read_input_line stdin = (Some line, rest)
       ∧ (∃ buf, stdin = buf ++ rest ∧ buf ≠ [])
       ∧ cstring line ∧ (NL ∉ line) ∧ (length line < MAX_LINE)%nat
       ∧ trim line = line)
  ∧ (∀ ws1 text ws2 rest,
       blank ws1 → blank ws2 →
       (∀ c, head text = Some c → isspace c = false) →
       (∀ c, last text = Some c → isspace c = false) →
       NL ∉ ws1 ++ text ++ ws2 → NUL ∉ ws1 ++ text ++ ws2 →
       (length (ws1 ++ text ++ ws2) + 1 < MAX_LINE)%nat →
       read_input_line ((ws1 ++ text ++ ws2) ++ NL :: rest) = (Some text, rest)).
Proof.
  split; [done|split].
  - intros stdin Hne. unfold read_input_line.
    destruct (fgets MAX_LINE stdin) as [[buf rest]|] eqn:Hg.
    2:{ by apply fgets_none in Hg. }
    pose proof (fgets_some _ _ _ Hg) as [Heq Hlen].
    eexists _, _. split; [done|].
    split; [exists buf; split; [done|by destruct buf; simpl in *; [lia|]]|].
    assert (Hbuf : NL ∉ buf ∨ ∃ l', buf = l' ++ [NL] ∧ NL ∉ l').
    { unfold fgets in Hg. destruct stdin as [|a stdin]; [done|].
      assert (Hb : fgets_bytes (MAX_LINE - 1) (a :: stdin) = (buf, rest))
        by congruence.
      by apply fgets_bytes_newline in Hb. }
    destruct (line_of_buffer buf Hbuf) as [Hnl Hnul].
    split; [|split; [|split]].
    + apply Forall_forall. intros c Hc%trim_elem ->. done.
    + intros Hc%trim_elem. done.
    + pose proof (trim_length (strip_newline (cut_at NUL buf))).
      pose proof (strip_newline_length (cut_at NUL buf)).
      pose proof (cut_at_length NUL buf). lia.
    + apply trim_frame.
  - intros ws1 text ws2 rest H1 H2 Hh Hl Hnl Hnul Hlen.
    unfold read_input_line. rewrite fgets_line by done.
    rewrite cut_at_app_absent by done.
    change (cut_at NUL [NL]) with [NL]. rewrite strip_newline_snoc.
    by rewrite trim_framed.
Qed.

(** [read_input_line] returns NULL at the end of the input only.  The
    line it returns is a C string without a newline, shorter than the
    buffer, with no white space at either end, and it is cut from the
    front of the input.  A line of input that fits the buffer is
    returned without its newline and the white space around its
    text. *)
Theorem read_input_line_spec :
  read_input_line [] = (None, [])
  ∧ (∀ stdin, stdin ≠ [] → ∃ line rest,
       read_input_line stdin = (Some line, rest)
       ∧ (∃ buf, stdin = buf ++ rest ∧ buf ≠ [])
       ∧ cstring line ∧ (NL ∉ line) ∧ (length line < MAX_LINE)%nat
       ∧ trim line = line)
  ∧ (∀ ws1 text ws2 rest,
       blank ws1 → blank ws2 →
       (∀ c, head text = Some c → isspace c = false) →
       (∀ c, last text = Some c → isspace c = false) →
       NL ∉ ws1 ++ text ++ ws2 → NUL ∉ ws1 ++ text ++ ws2 →
       (length (ws1 ++ text ++ ws2) + 1 < MAX_LINE)%nat →
       read_input_line ((ws1 ++ text ++ ws2) ++ NL :: rest) = (Some text, rest)).
Proof.
  destruct read_input_line_cases as (Heof & Hline & Htyped).
  split; [exact Heof|]. split; [exact Hline|exact Htyped].
Qed.

Lemma read_input_line_spec_witness :
  (∃ line rest, read_input_line (lit "  Song A " ++ [NL] ++ lit "x")
                = (Some line, rest) ∧ trim line = line)
  ∧ read_input_line ((lit "  " ++ lit "Song A" ++ lit " ") ++ NL :: lit "x")
    = (Some (lit "Song A"), lit "x").
Proof.
  destruct read_input_line_spec as (_ & Hany & Hline). split.
  - destruct (Hany (lit "  Song A " ++ [NL] ++ lit "x")) as (l & r & H & _ & _ & _ & _ & Ht);
      [discriminate|]. by exists l, r.
  - apply Hline; try (by repeat constructor);
      try (intros c [= <-]; reflexivity);
      try (apply not_elem_of_strchr; by vm_compute).
Defined.

(** ** The tracks that enter the playlist *)

Lemma wrap_int_range z : int_range (wrap_int z).
Proof.
  unfold int_range, wrap_int, INT_MIN, INT_MAX.
  pose proof (Z.mod_pos_bound (z + 2 ^ 31) (2 ^ 32) eq_refl). lia.
Qed.

Lemma drawn_from_nil s : drawn_from s [].
Proof. split; [intros x Hx; by apply elem_of_nil in Hx|simpl; lia]. Qed.

Lemma drawn_from_refl s : drawn_from s s.
Proof. by split. Qed.

Lemma drawn_from_tail c s fld : drawn_from s fld → drawn_from (c :: s) fld.
Proof. intros [Hs Hl]. split; [intros x Hx; right; by apply Hs|simpl; lia]. Qed.

Lemma drawn_from_cons c s fld :
  drawn_from s fld → drawn_from (c :: s) (c :: fld).
Proof.
  intros [Hs Hl]. split; [|simpl; lia].
  intros x [->|Hx]%elem_of_cons; [left|right; by apply Hs].
Qed.

Lemma drawn_from_trans a b c : drawn_from a b → drawn_from b c → drawn_from a c.
Proof. intros [H1 L1] [H2 L2]. split; [intros x Hx; auto|lia]. Qed.

Lemma read_quoted_drawn n :
  ∀ s ti fld r, (length s ≤ n)%nat → read_quoted s ti = Some (fld, r) →
  drawn_from s fld ∧ drawn_from s r.
Proof.
  induction n as [|n IH]; intros s ti fld r Hn.
  - destruct s; [|simpl in Hn; lia]. intros [= <- <-].
    split; apply drawn_from_nil.
  - destruct s as [|c s]; [intros [= <- <-]; split; apply drawn_from_nil|].
    simpl in Hn. cbn [read_quoted].
    destruct (Ascii.eqb_spec c DQUOTE) as [->|Hne].
    + destruct s as [|d s].
      { intros [= <- <-]. split; apply drawn_from_nil. }
      destruct (Ascii.eqb_spec d DQUOTE) as [->|Hd].
      * destruct (MAX_LINE <=? ti)%nat; [done|].
        destruct (read_quoted s (S ti)) as [[fld' r']|] eqn:Hrec; [|done].
        intros [= <- <-].
        destruct (IH s (S ti) fld' r') as [Hf Hr]; [simpl in Hn; lia|done|].
        split.
        -- by apply drawn_from_cons, drawn_from_tail.
        -- by do 2 apply drawn_from_tail.
      * intros [= <- <-]. split; [apply drawn_from_nil|].
        apply drawn_from_tail, drawn_from_refl.
    + destruct (MAX_LINE <=? ti)%nat; [done|].
      destruct (MAX_LINE <=? S ti + 1)%nat.
      * intros [= <- <-]. split.
        -- apply drawn_from_cons, drawn_from_nil.
        -- apply drawn_from_tail, drawn_from_refl.
      * destruct (read_quoted s (S ti)) as [[fld' r']|] eqn:Hrec; [|done].
        intros [= <- <-].
        destruct (IH s (S ti) fld' r') as [Hf Hr]; [lia|done|].
        split; [by apply drawn_from_cons|by apply drawn_from_tail].
Qed.

Lemma read_plain_drawn s ti fld r :
  read_plain s ti = (fld, r) → drawn_from s fld ∧ drawn_from s r.
Proof.
  revert ti fld r. induction s as [|c s IH]; intros ti fld r; cbn [read_plain].
  - intros [= <- <-]. split; apply drawn_from_nil.
  - destruct (Ascii.eqb c COMMA).
    { intros [= <- <-]. split; [apply drawn_from_nil|apply drawn_from_refl]. }
    destruct (MAX_LINE <=? S ti + 1)%nat.
    { intros [= <- <-]. split.
      - apply drawn_from_cons, drawn_from_nil.
      - apply drawn_from_tail, drawn_from_refl. }
    destruct (read_plain s (S ti)) as [fld' r'] eqn:Hrec. intros [= <- <-].
    destruct (IH _ _ _ Hrec). split;
      [by apply drawn_from_cons|by apply drawn_from_tail].
Qed.

Lemma skip_to_comma_drawn s : drawn_from s (skip_to_comma s).
Proof.
  induction s as [|c s IH]; simpl; [apply drawn_from_nil|].
  destruct (Ascii.eqb c COMMA); [apply drawn_from_refl|by apply drawn_from_tail].
Qed.

Lemma skip_comma_drawn s : drawn_from s (skip_comma s).
Proof.
  destruct s as [|c s]; simpl; [apply drawn_from_nil|].
  destruct (Ascii.eqb c COMMA);
    [apply drawn_from_tail, drawn_from_refl|apply drawn_from_refl].
Qed.

(** The field that [csv_read_field] returns is made of bytes of the
    line, and the pointer it leaves still points into the line. *)
Lemma csv_read_field_drawn line sp fld sp' :
  points_into line sp → csv_read_field sp = Some (fld, sp') →
  drawn_from line fld ∧ points_into line sp'.
Proof.
  intros Hsp. destruct sp as [[|c s]|]; cbn [csv_read_field].
  1, 3: intros [= <- <-]; split; [apply drawn_from_nil|intros ? [=]].
  specialize (Hsp _ eq_refl).
  destruct (Ascii.eqb c DQUOTE).
  - destruct (read_quoted s 0) as [[f s1]|] eqn:Hq; [|done].
    destruct (MAX_LINE <=? length f)%nat; [done|]. intros [= <- <-].
    destruct (read_quoted_drawn _ _ _ _ _ (le_n _) Hq) as [Hf Hs1].
    split.
    + eapply drawn_from_trans; [exact Hsp|by apply drawn_from_tail].
    + intros s' ->%or_null_length.
      eapply drawn_from_trans; [exact Hsp|]. apply drawn_from_tail.
      eapply drawn_from_trans; [exact Hs1|].
      eapply drawn_from_trans; [apply skip_to_comma_drawn|apply skip_comma_drawn].
  - destruct (read_plain (c :: s) 0) as [f s1] eqn:Hp. intros [= <- <-].
    destruct (read_plain_drawn _ _ _ _ Hp) as [Hf Hs1].
    split.
    + eapply drawn_from_trans; [exact Hsp|done].
    + intros s' ->%or_null_length.
      eapply drawn_from_trans; [exact Hsp|].
      eapply drawn_from_trans; [exact Hs1|apply skip_comma_drawn].
Qed.

Lemma line_of_clean buf :
  (length buf < MAX_LINE)%nat →
  (NL ∉ line_of buf) ∧ (NUL ∉ line_of buf)
  ∧ (length (line_of buf) < MAX_LINE)%nat.
Proof.
  intros Hlen. unfold line_of. split; [|split].
  - intros H%cut_at_elem. tauto.
  - intros [H%cut_at_elem _]%cut_at_elem. tauto.
  - pose proof (cut_at_length NL (cut_at NUL buf)).
    pose proof (cut_at_length NUL buf). lia.
Qed.

Lemma drawn_from_clean line fld :
  NL ∉ line → NUL ∉ line → (length line < MAX_LINE)%nat → drawn_from line fld →
  cstring fld ∧ (NL ∉ fld) ∧ (length fld < MAX_LINE)%nat.
Proof.
  intros Hnl Hnul Hlen [Hsub Hl]. split; [|split; [|lia]].
  - apply Forall_forall. intros c Hc ->. by apply Hnul, Hsub.
  - intros Hc. by apply Hnl, Hsub.
Qed.

(** The track that a line adds, whatever the line holds. *)
Lemma load_record_clean pl buf pl' :
  (length buf < MAX_LINE)%nat → load_record pl buf = Some pl' →
  pl' = pl
  ∨ ∃ t, pl' = add_track pl (title t) (artist t) (album t) (duration t)
         ∧ clean_track t ∧ short_fields t.
Proof.
  intros Hlen. unfold load_record. fold (line_of buf).
  destruct (line_of_clean buf Hlen) as (Hnl & Hnul & Hll).
  assert (H0 : points_into (line_of buf) (Some (line_of buf))).
  { intros s' [= <-]. apply drawn_from_refl. }
  destruct (csv_read_field (Some (line_of buf))) as [[f1 p1]|] eqn:E1; [|done].
  destruct (csv_read_field_drawn _ _ _ _ H0 E1) as [D1 H1].
  destruct (csv_read_field p1) as [[f2 p2]|] eqn:E2; [|done].
  destruct (csv_read_field_drawn _ _ _ _ H1 E2) as [D2 H2].
  destruct (csv_read_field p2) as [[f3 p3]|] eqn:E3; [|done].
  destruct (csv_read_field_drawn _ _ _ _ H2 E3) as [D3 H3].
  destruct (csv_read_field p3) as [[f4 p4]|] eqn:E4; [|done].
  intros [= <-]. destruct f1 as [|c f1]; [by left|right].
  exists (mkTrack (c :: f1) f2 f3 (atoi f4)). split; [done|].
  destruct (drawn_from_clean _ _ Hnl Hnul Hll D1) as (? & ? & ?).
  destruct (drawn_from_clean _ _ Hnl Hnul Hll D2) as (? & ? & ?).
  destruct (drawn_from_clean _ _ Hnl Hnul Hll D3) as (? & ? & ?).
  repeat split; try done. all: apply wrap_int_range.
Qed.

(** Every track that loading puts into the playlist, from whatever
    bytes, has a title that is not empty, text fields that are C
    strings without a newline and shorter than the line buffer, and a
    duration that is an [int]: if the tracks of the playlist were so
    before the load, they all are so after it. *)
Theorem loaded_tracks_clean (pl : Playlist) (f : option (list ascii))
    (r : Z) (pl' : Playlist) :
  Forall (λ t, clean_track t ∧ short_fields t) (items pl) →
  load_playlist_csv pl f = Some (r, pl') →
  Forall (λ t, clean_track t ∧ short_fields t) (items pl').
Proof.
  intros Hall Hload.
  apply (load_playlist_csv_invariant
           (λ p, Forall (λ t, clean_track t ∧ short_fields t) (items p)))
    with (f := f) (pl := pl) (r := r); [|done|done].
  intros p buf p1 HP Hlen Hrec.
  destruct (load_record_clean p buf p1 Hlen Hrec) as [->|(t & -> & Hc & Hs)];
    [done|].
  rewrite add_track_items. apply Forall_app. split; [done|].
  constructor; [|done]. by destruct t.
Qed.

Lemma loaded_tracks_clean_witness :
  Forall (λ t, clean_track t ∧ short_fields t)
    (items (add_track init_playlist (lit "Song A") (lit "Artist X") [] 0)).
Proof.
  apply (loaded_tracks_clean init_playlist
           (Some (lit "Song A,Artist X" ++ [NL])) 1).
  - constructor.
  - by vm_compute.
Defined.

Lemma read_input_line_clean stdin line :
  (read_input_line stdin).1 = Some line →
  cstring line ∧ (NL ∉ line) ∧ (length line < MAX_LINE)%nat.
Proof.
  destruct read_input_line_cases as (Hnil & Hany & _).
  destruct stdin as [|c stdin]; [by rewrite Hnil|].
  destruct (Hany (c :: stdin)) as (l & r & -> & _ & ? & ? & ? & _); [done|].
  by intros [= <-].
Qed.

Lemma read_typed_line s rest :
  typed_line s → read_input_line (s ++ NL :: rest) = (Some s, rest).
Proof.
  intros (Hnul & Hnl & Hh & Hl & Hlen).
  destruct read_input_line_cases as (_ & _ & Hline).
  specialize (Hline [] s [] rest). rewrite app_nil_r in Hline.
  apply Hline; try done; constructor.
Qed.

Lemma digits_of_length fuel n acc :
  (length (digits_of fuel n acc) ≤ fuel + length acc)%nat.
Proof.
  revert n acc. induction fuel as [|fuel IH]; intros n acc; simpl; [lia|].
  destruct (n / 10 =? 0); simpl; [lia|].
  specialize (IH (n / 10) (digit_char (n mod 10) :: acc)). simpl in IH. lia.
Qed.

Lemma print_int_typed d : int_range d → typed_line (print_int d).
Proof.
  intros Hd. pose proof (print_int_chars d) as Hall.
  rewrite Forall_forall in Hall.
  assert (Hns : ∀ c, c ∈ print_int d → isspace c = false).
  { intros c [H| ->]%Hall; [by apply isdigit_not_space|done]. }
  split; [|split; [|split; [|split]]].
  - by apply print_int_not_in.
  - by apply print_int_not_in.
  - intros c Hc. apply Hns. rewrite head_lookup in Hc.
    by eapply list_elem_of_lookup_2.
  - intros c Hc. apply Hns. rewrite last_lookup in Hc.
    by eapply list_elem_of_lookup_2.
  - assert (length (print_int d) ≤ 33)%nat; [|unfold MAX_LINE; lia].
    unfold int_range, INT_MIN, INT_MAX in Hd. unfold print_int.
    destruct (Z.ltb_spec d 0).
    + rewrite length_cons.
      pose proof (digits_of_length (S (Z.to_nat (Z.log2 (- d)))) (- d) []).
      assert (Z.log2 (- d) <= Z.log2 (2 ^ 31)) by (apply Z.log2_le_mono; lia).
      rewrite Z.log2_pow2 in H1 by lia.
      change (length (@nil ascii)) with 0%nat in H0. lia.
    + pose proof (digits_of_length (S (Z.to_nat (Z.log2 d))) d []).
      assert (Z.log2 d <= Z.log2 (2 ^ 31)) by (apply Z.log2_le_mono; lia).
      rewrite Z.log2_pow2 in H1 by lia.
      change (length (@nil ascii)) with 0%nat in H0. lia.
Qed.

(** The [add] command.  Four lines typed in answer to its prompts, the
    last one the decimal form of an [int], add the track with these
    fields and nothing else.  When the title line is empty, or the input
    has ended, the playlist is left as it is.  In every case the track
    that is added has a title that is not empty, C strings without a
    newline and shorter than the line buffer as its text fields, and an
    [int] as its duration. *)
Theorem cmd_add_spec (pl : Playlist) :
  (∀ ti ar al d rest,
     typed_line ti → typed_line ar → typed_line al → ti ≠ [] → int_range d →
     cmd_add pl (ti ++ NL :: ar ++ NL :: al ++ NL :: print_int d ++ NL :: rest)
     = (add_track pl ti ar al d, rest))
  ∧ (∀ stdin, (read_input_line stdin).1 = None
              ∨ (read_input_line stdin).1 = Some [] →
       (cmd_add pl stdin).1 = pl)
  ∧ (∀ stdin,
       Forall (λ t, clean_track t ∧ short_fields t) (items pl) →
       Forall (λ t, clean_track t ∧ short_fields t) (items (cmd_add pl stdin).1)).
Proof.
  split; [|split].
  - intros ti ar al d rest Hti Har Hal Hne Hd. unfold cmd_add.
    rewrite !read_typed_line by (done || by apply print_int_typed).
    simpl or_else. rewrite atoi_print_int by done. by destruct ti.
  - intros stdin H. unfold cmd_add.
    destruct (read_input_line stdin) as [title in1].
    destruct (read_input_line in1) as [artist in2].
    destruct (read_input_line in2) as [album in3].
    destruct (read_input_line in3) as [dur_s in4].
    simpl in H. by destruct H as [-> | ->].
  - intros stdin Hall. unfold cmd_add.
    destruct (read_input_line stdin) as [title in1] eqn:E1.
    destruct (read_input_line in1) as [artist in2] eqn:E2.
    destruct (read_input_line in2) as [album in3] eqn:E3.
    destruct (read_input_line in3) as [dur_s in4] eqn:E4.
    destruct title as [[|c t]|]; cbn [fst]; try done.
    rewrite add_track_items. apply Forall_app. split; [done|].
    constructor; [|done].
    assert (Hunk : cstring (lit "Unknown") ∧ (NL ∉ lit "Unknown")
                   ∧ (length (lit "Unknown") < MAX_LINE)%nat).
    { split; [by apply cstring_strchr|split;
        [by apply not_elem_of_strchr|vm_compute; lia]]. }
    assert (Hor : ∀ stdin o rest, read_input_line stdin = (o, rest) →
              cstring (or_else o (lit "Unknown"))
              ∧ (NL ∉ or_else o (lit "Unknown"))
              ∧ (length (or_else o (lit "Unknown")) < MAX_LINE)%nat).
    { intros s0 [l|] r0 E; [|done]. apply (read_input_line_clean s0).
      by rewrite E. }
    destruct (read_input_line_clean stdin (c :: t)) as (? & ? & ?);
      [by rewrite E1|].
    destruct (Hor _ _ _ E2) as (? & ? & ?).
    destruct (Hor _ _ _ E3) as (? & ? & ?).
    repeat split; try done. all: apply wrap_int_range.
Qed.

Lemma cmd_add_spec_witness :
  cmd_add init_playlist
    (lit "Song A" ++ NL :: lit "Artist X" ++ NL :: lit "Album 1" ++ NL ::
     print_int 125 ++ NL :: lit "list")
  = (add_track init_playlist (lit "Song A") (lit "Artist X") (lit "Album 1") 125,
     lit "list")
  ∧ (cmd_add three_tracks [NL]).1 = three_tracks
  ∧ Forall (λ t, clean_track t ∧ short_fields t)
      (items (cmd_add init_playlist (lit " x ")).1).
Proof.
  assert (Ht : ∀ s, nonnull (strchr s NUL) = false →
            nonnull (strchr s NL) = false →
            (∀ c, head s = Some c → isspace c = false) →
            (∀ c, last s = Some c → isspace c = false) →
            (length s + 1 < MAX_LINE)%nat → typed_line s).
  { intros s ? ? ? ? ?. repeat split; try done; by apply not_elem_of_strchr. }
  destruct (cmd_add_spec init_playlist) as (Hadd & _ & Hclean).
  destruct (cmd_add_spec three_tracks) as (_ & Hskip & _).
  split; [|split].
  - apply Hadd; try (apply Ht; try reflexivity;
      try (intros c [= <-]; reflexivity); vm_compute; lia).
    + discriminate.
    + vm_compute. split; congruence.
  - apply Hskip. right. reflexivity.
  - apply Hclean. constructor.
Defined.

(** ** Indexes typed by the user *)

Lemma skip_digits_all s : Forall (λ c, isdigit c = true) s → skip_digits s = [].
Proof. induction 1 as [|c s Hc _ IH]; [done|]. simpl. by rewrite Hc. Qed.

Lemma skip_digits_nil s : skip_digits s = [] → Forall (λ c, isdigit c = true) s.
Proof.
  induction s as [|c s IH]; [constructor|]. simpl.
  destruct (isdigit c) eqn:Hc; [|done]. intros H. constructor; auto.
Qed.

(** [strtol_end] computes the value that [strtol] computes. *)
Lemma strtol_end_value s : (strtol_end s).1 = strtol s.
Proof.
  unfold strtol_end, strtol.
  destruct (match skip_spaces s with
            | [] => (false, [])
            | c :: s' => _
            end) as [neg s2].
  destruct s2 as [|d s2]; [by destruct neg|].
  destruct (isdigit d) eqn:Hd; [done|].
  cbn [parse_digits fst]. rewrite Hd. by destruct neg.
Qed.

(** The tokens that [parse_index_token] accepts: white space, an
    optional sign, then digits up to the end. *)
Lemma strtol_end_whole t v :
  strtol_end t = (v, []) → v ≠ 0 →
  ∃ ws sg ds, t = ws ++ sg ++ ds ∧ blank ws
              ∧ (sg = [] ∨ sg = ["-"%char] ∨ sg = ["+"%char])
              ∧ ds ≠ [] ∧ Forall (λ c, isdigit c = true) ds.
Proof.
  unfold strtol_end. destruct (skip_spaces_split t) as (ws & Heq & Hws).
  destruct (skip_spaces t) as [|c s'] eqn:Hs.
  { intros [= <- _]. done. }
  assert (Hgen : ∀ neg sg s2, c :: s' = sg ++ s2 →
            (sg = [] ∨ sg = ["-"%char] ∨ sg = ["+"%char]) →
            match s2 with
            | [] => (0, t)
            | d :: _ =>
                if isdigit d
                then (Z.max LONG_MIN
                        (Z.min LONG_MAX
                           (if neg : bool then - parse_digits s2 0
                            else parse_digits s2 0)), skip_digits s2)
                else (0, t)
            end = (v, []) → v ≠ 0 →
            ∃ ws sg ds, t = ws ++ sg ++ ds ∧ blank ws
              ∧ (sg = [] ∨ sg = ["-"%char] ∨ sg = ["+"%char])
              ∧ ds ≠ [] ∧ Forall (λ c, isdigit c = true) ds).
  { intros neg sg s2 Hsplit Hsg. destruct s2 as [|d s2]; [by intros [= <- _]|].
    destruct (isdigit d) eqn:Hd; [|by intros [= <- _]].
    intros [= _ Hskip] _. exists ws, sg, (d :: s2).
    rewrite <- Hsplit. repeat split; try done. by apply skip_digits_nil. }
  destruct (Ascii.eqb_spec c "-") as [->|_].
  { apply (Hgen true ["-"%char] s'); [done|tauto]. }
  destruct (Ascii.eqb_spec c "+") as [->|_].
  { apply (Hgen false ["+"%char] s'); [done|tauto]. }
  apply (Hgen false [] (c :: s')); [done|tauto].
Qed.

Lemma strtol_end_print_int n :
  0 <= n <= LONG_MAX → strtol_end (print_int n) = (n, []).
Proof.
  intros Hn. unfold print_int. destruct (Z.ltb_spec n 0); [lia|].
  destruct (digits_of_number n) as ((c & l & Heq) & Hall & Hval); [lia|].
  cbv zeta in Heq, Hall, Hval. unfold strtol_end. rewrite Heq in *.
  pose proof Hall as Hall'. apply Forall_cons in Hall as [Hc _].
  cbn [skip_spaces]. rewrite (isdigit_not_space c Hc).
  rewrite (isdigit_neq c "-" Hc eq_refl), (isdigit_neq c "+" Hc eq_refl).
  rewrite Hc, Hval, (skip_digits_all _ Hall').
  f_equal. unfold LONG_MIN, LONG_MAX in *. lia.
Qed.

(** The answers of [parse_index_token]. *)
Lemma parse_index_token_cases (max : Z) :
  max <= INT_MAX →
  (∀ n, 1 <= n <= max → parse_index_token (Some (print_int n)) max = n - 1)
  ∧ (∀ tok, parse_index_token tok max = -1
            ∨ 0 <= parse_index_token tok max < max)
  ∧ (∀ t, parse_index_token (Some t) max ≠ -1 →
       strtol t = parse_index_token (Some t) max + 1
       ∧ ∃ ws sg ds, t = ws ++ sg ++ ds ∧ blank ws
           ∧ (sg = [] ∨ sg = ["-"%char] ∨ sg = ["+"%char])
           ∧ ds ≠ [] ∧ Forall (λ c, isdigit c = true) ds).
Proof.
  intros Hmax. unfold INT_MAX in Hmax.
  assert (Hacc : ∀ t, parse_index_token (Some t) max ≠ -1 →
            ∃ v, strtol_end t = (v, []) ∧ 1 <= v <= max
                 ∧ parse_index_token (Some t) max = v - 1).
  { intros t. unfold parse_index_token.
    destruct (strtol_end t) as [v e] eqn:He.
    destruct e as [|c e]; simpl; [|done].
    destruct (Z.ltb_spec v 1); simpl; [done|].
    destruct (Z.ltb_spec max v); [done|]. intros _.
    exists v. split; [done|]. split; [lia|].
    rewrite wrap_int_id; [done|]. unfold int_range, INT_MIN, INT_MAX. lia. }
  split; [|split].
  - intros n Hn. unfold parse_index_token.
    rewrite strtol_end_print_int by (unfold LONG_MAX; lia). simpl.
    destruct (Z.ltb_spec n 1); [lia|]. destruct (Z.ltb_spec max n); [lia|].
    simpl. rewrite wrap_int_id; [done|]. unfold int_range, INT_MIN, INT_MAX. lia.
  - intros [t|]; [|by left].
    destruct (Z.eq_dec (parse_index_token (Some t) max) (-1)) as [|Hne];
      [by left|right].
    destruct (Hacc t Hne) as (v & _ & Hv & ->). lia.
  - intros t Hne. destruct (Hacc t Hne) as (v & He & Hv & ->).
    split.
    + rewrite <- strtol_end_value, He. simpl. lia.
    + apply (strtol_end_whole t v He). lia.
Qed.

(** [parse_index_token] turns the decimal form of a number from 1 to
    [max] into the index one below it, and answers -1 or such an index
    to every token.  The tokens it accepts are made of white space, an
    optional sign and digits up to their end. *)
Theorem parse_index_token_spec (max : Z) :
  max <= INT_MAX →
  (∀ n, 1 <= n <= max → parse_index_token (Some (print_int n)) max = n - 1)
  ∧ (∀ tok, parse_index_token tok max = -1
            ∨ 0 <= parse_index_token tok max < max)
  ∧ (∀ t, parse_index_token (Some t) max ≠ -1 →
       strtol t = parse_index_token (Some t) max + 1
       ∧ ∃ ws sg ds, t = ws ++ sg ++ ds ∧ blank ws
           ∧ (sg = [] ∨ sg = ["-"%char] ∨ sg = ["+"%char])
           ∧ ds ≠ [] ∧ Forall (λ c, isdigit c = true) ds).
Proof.
  intros Hmax.
  destruct (parse_index_token_cases max Hmax) as (Hnum & Hrange & Htok).
  split; [exact Hnum|]. split; [exact Hrange|exact Htok].
Qed.

Lemma parse_index_token_spec_witness :
  parse_index_token (Some (print_int 2)) 3 = 2 - 1
  ∧ (parse_index_token (Some (lit "2x")) 3 = -1
     ∨ 0 <= parse_index_token (Some (lit "2x")) 3 < 3)
  ∧ strtol (lit " +2") = parse_index_token (Some (lit " +2")) 3 + 1.
Proof.
  destruct (parse_index_token_spec 3) as (Hrt & Hrange & Hacc);
    [by vm_compute|].
  split; [apply Hrt; lia|split; [apply Hrange|]].
  apply Hacc. by vm_compute.
Defined.

Lemma parse_digits_nonneg s acc : 0 <= acc → 0 <= parse_digits s acc.
Proof.
  revert acc. induction s as [|c s IH]; intros acc Hacc; [done|].
  cbn [parse_digits]. destruct (isdigit c) eqn:Hc; [|done].
  apply IH. apply isdigit_range in Hc. unfold digit_val. lia.
Qed.

(** [strtol_end] on white space, a sign and digits up to the end. *)
Lemma strtol_end_token ws sg ds :
  blank ws → ds ≠ [] → Forall (λ c, isdigit c = true) ds →
  (sg = [] ∨ sg = ["+"%char] →
   strtol_end (ws ++ sg ++ ds) = (Z.min LONG_MAX (parse_digits ds 0), []))
  ∧ (sg = ["-"%char] →
     strtol_end (ws ++ sg ++ ds)
     = (Z.max LONG_MIN (- parse_digits ds 0), [])).
Proof.
  intros Hws Hne Hds. destruct ds as [|d ds]; [done|].
  pose proof (parse_digits_nonneg (d :: ds) 0 (Z.le_refl 0)) as Hpos.
  pose proof Hds as Hall. apply Forall_cons in Hds as [Hd _].
  unfold strtol_end. rewrite skip_spaces_app by done.
  split.
  - intros [-> | ->]; cbn [app skip_spaces].
    + rewrite (isdigit_not_space d Hd).
      rewrite (isdigit_neq d "-" Hd eq_refl), (isdigit_neq d "+" Hd eq_refl).
      rewrite Hd, (skip_digits_all _ Hall). f_equal.
      unfold LONG_MIN, LONG_MAX. lia.
    + change (isspace "+") with false. cbv iota.
      change (Ascii.eqb "+" "-") with false.
      change (Ascii.eqb "+" "+") with true. cbv iota.
      rewrite Hd, (skip_digits_all _ Hall). f_equal.
      unfold LONG_MIN, LONG_MAX. lia.
  - intros ->. cbn [app skip_spaces].
    change (isspace "-") with false. cbv iota.
    change (Ascii.eqb "-" "-") with true. cbv iota.
    rewrite Hd, (skip_digits_all _ Hall). f_equal.
    unfold LONG_MIN, LONG_MAX. lia.
Qed.

(** The decimal form of a natural number names it. *)
Lemma print_int_names n : 0 <= n → names_number (print_int n) n.
Proof.
  intros Hn. unfold print_int. destruct (Z.ltb_spec n 0); [lia|].
  destruct (digits_of_number n Hn) as ((c & l & Heq) & Hall & Hval).
  cbv zeta in Heq, Hall, Hval.
  exists [], [], (digits_of (S (Z.to_nat (Z.log2 n))) n []).
  split; [done|]. split; [constructor|]. split; [by left|].
  split; [by rewrite Heq|]. by split.
Qed.

(** A token that names a number ends with a digit. *)
Lemma names_number_last t n :
  names_number t n → ∃ c, last t = Some c ∧ isdigit c = true.
Proof.
  intros (ws & sg & ds & -> & _ & _ & Hne & Hds & _).
  destruct (last ds) as [c|] eqn:Hlast.
  - exists c. rewrite !last_app, Hlast. split; [done|].
    apply last_Some in Hlast as [l' ->].
    by apply Forall_app in Hds as [_ [Hc _]%Forall_cons].
  - by apply last_None in Hlast.
Qed.

(** [parse_index_token] gives the index [n - 1] to the tokens that
    name a number [n] from 1 to [max], and -1 to all others. *)
Lemma parse_index_token_names (max : Z) :
  max <= INT_MAX →
  (∀ t n, names_number t n → 1 <= n <= max →
     parse_index_token (Some t) max = n - 1)
  ∧ (∀ t, parse_index_token (Some t) max ≠ -1 →
       ∃ n, names_number t n ∧ 1 <= n <= max).
Proof.
  intros Hmax. unfold INT_MAX in Hmax. split.
  - intros t n (ws & sg & ds & -> & Hws & Hsg & Hne & Hds & Hval) Hn.
    destruct (strtol_end_token ws sg ds Hws Hne Hds) as [Hplus _].
    unfold parse_index_token. rewrite (Hplus Hsg), Hval.
    replace (Z.min LONG_MAX n) with n by (unfold LONG_MAX; lia).
    cbn [negb orb]. destruct (Z.ltb_spec n 1); [lia|].
    destruct (Z.ltb_spec max n); [lia|]. cbn [orb].
    rewrite wrap_int_id; [done|]. unfold int_range, INT_MIN, INT_MAX. lia.
  - intros t Hacc.
    assert (∃ v, strtol_end t = (v, []) ∧ 1 <= v <= max) as (v & He & Hv).
    { unfold parse_index_token in Hacc.
      destruct (strtol_end t) as [v e].
      destruct e as [|c e]; [|done]. cbn [negb orb] in Hacc.
      destruct (Z.ltb_spec v 1); [done|].
      destruct (Z.ltb_spec max v); [done|]. exists v. split; [done|lia]. }
    destruct (strtol_end_whole t v He) as (ws & sg & ds & -> & Hws & Hsg & Hne & Hds);
      [lia|].
    pose proof (parse_digits_nonneg ds 0 (Z.le_refl 0)) as Hpos.
    destruct (strtol_end_token ws sg ds Hws Hne Hds) as [Hplus Hminus].
    destruct Hsg as [-> | [-> | ->]].
    + rewrite Hplus in He by tauto.
      assert (Z.min LONG_MAX (parse_digits ds 0) = v) as Hmin by congruence.
      exists v. split; [|done]. exists ws, [], ds.
      repeat split; try done; [by left|]. unfold LONG_MAX in Hmin. lia.
    + rewrite Hminus in He by done.
      assert (Z.max LONG_MIN (- parse_digits ds 0) = v) as Hm by congruence.
      unfold LONG_MIN in Hm. lia.
    + rewrite Hplus in He by tauto.
      assert (Z.min LONG_MAX (parse_digits ds 0) = v) as Hmin by congruence.
      exists v. split; [|done]. exists ws, ["+"%char], ds.
      repeat split; try done; [by right|]. unfold LONG_MAX in Hmin. lia.
Qed.

(** The [remove] command, on a playlist whose size is an [int].  A
    token that names a number [n] from 1 to the size (white space, an
    optional plus sign, digits up to the end), such as the decimal form
    of [n], removes the track of that number and keeps the others in
    order.  Every other token, and a missing token, leaves the playlist
    as it is.  The command never removes more than one track. *)
Theorem cmd_remove_spec (pl : Playlist) :
  Z.of_nat (size pl) <= INT_MAX →
  (∀ n, (1 ≤ n ≤ size pl)%nat →
     items (cmd_remove pl (Some (print_int (Z.of_nat n))))
     = take (n - 1) (items pl) ++ drop n (items pl))
  ∧ (∀ tok, cmd_remove pl tok = pl
            ∨ ∃ idx, (idx < size pl)%nat
                ∧ items (cmd_remove pl tok)
                  = take idx (items pl) ++ drop (S idx) (items pl))
  ∧ (∀ n, names_number (print_int (Z.of_nat n)) (Z.of_nat n))
  ∧ (∀ t n, names_number t (Z.of_nat n) → (1 ≤ n ≤ size pl)%nat →
       cmd_remove pl (Some t) = remove_track_at pl (n - 1)
       ∧ items (cmd_remove pl (Some t))
         = take (n - 1) (items pl) ++ drop n (items pl))
  ∧ (∀ tok,
       (∀ t n, tok = Some t → names_number t (Z.of_nat n) →
          ¬ (1 ≤ n ≤ size pl)%nat) →
       cmd_remove pl tok = pl).
Proof.
  intros Hsize.
  assert (Hw : wrap_int (Z.of_nat (size pl)) = Z.of_nat (size pl)).
  { apply wrap_int_id. unfold int_range, INT_MIN, INT_MAX in *. lia. }
  destruct (parse_index_token_cases (Z.of_nat (size pl)) Hsize)
    as (Hrt & Hrange & _).
  destruct (parse_index_token_names (Z.of_nat (size pl)) Hsize)
    as (Hnames & Hacc).
  assert (Hrm : ∀ t n, names_number t (Z.of_nat n) → (1 ≤ n ≤ size pl)%nat →
            cmd_remove pl (Some t) = remove_track_at pl (n - 1)).
  { intros t n Ht Hn. unfold cmd_remove. rewrite Hw, (Hnames t _ Ht) by lia.
    destruct (Z.ltb_spec (Z.of_nat n - 1) 0); [lia|].
    by replace (Z.to_nat (Z.of_nat n - 1)) with (n - 1)%nat by lia. }
  split; [|split; [|split; [|split]]].
  - intros n Hn. unfold cmd_remove. rewrite Hw, Hrt by lia.
    destruct (Z.ltb_spec (Z.of_nat n - 1) 0); [lia|].
    replace (Z.to_nat (Z.of_nat n - 1)) with (n - 1)%nat by lia.
    rewrite remove_track_at_items by lia. do 2 f_equal. lia.
  - intros tok. unfold cmd_remove. rewrite Hw.
    destruct (Hrange tok) as [-> |Hr]; [by left|].
    destruct (Z.ltb_spec (parse_index_token tok (Z.of_nat (size pl))) 0);
      [by left|right].
    exists (Z.to_nat (parse_index_token tok (Z.of_nat (size pl)))).
    split; [lia|]. apply remove_track_at_items. lia.
  - intros n. apply print_int_names. lia.
  - intros t n Ht Hn. split; [by apply Hrm|].
    rewrite (Hrm t n Ht Hn), remove_track_at_items by lia.
    do 2 f_equal. lia.
  - intros tok Hother. unfold cmd_remove. rewrite Hw.
    destruct tok as [t|]; [|done].
    destruct (Z.eq_dec (parse_index_token (Some t) (Z.of_nat (size pl))) (-1))
      as [-> |Hne]; [done|].
    destruct (Hacc t Hne) as (v & Hv & Hin).
    exfalso. apply (Hother t (Z.to_nat v) eq_refl).
    + by replace (Z.of_nat (Z.to_nat v)) with v by lia.
    + lia.
Qed.

Lemma cmd_remove_spec_witness :
  items (cmd_remove three_tracks (Some (print_int (Z.of_nat 2))))
  = take (2 - 1) (items three_tracks) ++ drop 2 (items three_tracks)
  ∧ items (cmd_remove three_tracks (Some (lit " +2")))
    = take (2 - 1) (items three_tracks) ++ drop 2 (items three_tracks)
  ∧ cmd_remove three_tracks None = three_tracks
  ∧ cmd_remove three_tracks (Some (lit "2x")) = three_tracks.
Proof.
  destruct (cmd_remove_spec three_tracks) as (Hrm & _ & _ & Hnum & Hother);
    [by vm_compute|].
  split; [apply Hrm; vm_compute; lia|]. split; [|split].
  - apply (Hnum (lit " +2") 2%nat); [|vm_compute; lia].
    exists [" "%char], ["+"%char], ["2"%char].
    split; [reflexivity|]. split; [by repeat constructor|].
    split; [by right|]. split; [done|]. split; [by repeat constructor|].
    reflexivity.
  - apply Hother. intros t n Htok. discriminate Htok.
  - apply Hother. intros t n [= <-] Hname.
    apply names_number_last in Hname as (c & [= <-] & Hc). discriminate Hc.
Defined.

(** ** Sorting by title and by artist *)

Lemma code_inj c d : code c = code d → c = d.
Proof.
  unfold code. intros H%(inj Z.of_N).
  by rewrite <- (ascii_N_embedding c), <- (ascii_N_embedding d), H.
Qed.

Lemma tolower_code_pos c : c ≠ NUL → 0 < code (tolower c).
Proof.
  destruct c as [[] [] [] [] [] [] [] []]; intros H;
    try reflexivity; by destruct H.
Qed.

Lemma lex_le_refl l : lex_le l l.
Proof. induction l; by constructor. Qed.

Lemma lex_le_trans a b c : lex_le a b → lex_le b c → lex_le a c.
Proof.
  intros Hab. revert c. induction Hab as [l|x y l1 l2 Hxy|x l1 l2 _ IH];
    intros c Hbc; [constructor|..]; inversion Hbc; subst.
  - apply lex_le_lt. lia.
  - by apply lex_le_lt.
  - by apply lex_le_lt.
  - apply lex_le_eq. by apply IH.
Qed.

Lemma lex_le_antisym a b : lex_le a b → lex_le b a → a = b.
Proof.
  induction 1 as [l|x y l1 l2 Hxy|x l1 l2 _ IH]; intros Hba;
    inversion Hba; subst; try done; try lia.
  f_equal. by apply IH.
Qed.

Lemma fold_case_cons c s : fold_case (c :: s) = code (tolower c) :: fold_case s.
Proof. done. Qed.

(** The sign of [strcasecmp] on C strings is the order of their
    lower-cased bytes. *)
Lemma strcasecmp_le a b :
  cstring a → cstring b → strcasecmp a b <= 0 ↔ ci_le a b.
Proof.
  unfold ci_le. intros Ha. revert b.
  induction Ha as [|c a Hc _ IH]; intros b Hb.
  - destruct Hb as [|d b Hd _]; simpl.
    + split; [constructor|done].
    + pose proof (tolower_code_pos d Hd). split; [constructor|lia].
  - destruct Hb as [|d b Hd Hb]; cbn [strcasecmp]; rewrite ?fold_case_cons.
    + pose proof (tolower_code_pos c Hc).
      split; [lia|intros H'; inversion H'].
    + destruct (Ascii.eqb_spec (tolower c) (tolower d)) as [Heq|Hne].
      * rewrite Heq, (IH b Hb). split; [by constructor|].
        intros H'; inversion H'; subst; [lia|done].
      * assert (code (tolower c) ≠ code (tolower d))
          by (intros ?%code_inj; done).
        split.
        -- intros Hle. apply lex_le_lt. lia.
        -- intros H'; inversion H'; subst; [lia|done].
Qed.

Lemma strcasecmp_zero a b :
  cstring a → cstring b → strcasecmp a b = 0 ↔ fold_case a = fold_case b.
Proof.
  intros Ha. revert b. induction Ha as [|c a Hc _ IH]; intros b Hb.
  - destruct Hb as [|d b Hd _]; simpl; [done|].
    pose proof (tolower_code_pos d Hd). split; [lia|done].
  - destruct Hb as [|d b Hd Hb]; cbn [strcasecmp]; rewrite ?fold_case_cons.
    + pose proof (tolower_code_pos c Hc). split; [lia|done].
    + destruct (Ascii.eqb_spec (tolower c) (tolower d)) as [Heq|Hne].
      * rewrite Heq, (IH b Hb). split; [congruence|by intros [= ?]].
      * assert (code (tolower c) ≠ code (tolower d))
          by (intros ?%code_inj; done).
        split; [lia|by intros [= ?]].
Qed.

Lemma strcasecmp_antisym a b : strcasecmp b a = - strcasecmp a b.
Proof.
  revert b. induction a as [|c a IH]; intros [|d b]; cbn [strcasecmp]; try lia.
  rewrite (Ascii.eqb_sym (tolower d)).
  destruct (Ascii.eqb (tolower c) (tolower d)); [apply IH|lia].
Qed.

Lemma cmp_artist_antisym a b : cmp_artist b a = - cmp_artist a b.
Proof.
  unfold cmp_artist. rewrite (strcasecmp_antisym (artist a)).
  rewrite (strcasecmp_antisym (title a)).
  destruct (Z.eqb_spec (strcasecmp (artist a) (artist b)) 0) as [->|Hne].
  - done.
  - by destruct (Z.eqb_spec (- strcasecmp (artist a) (artist b)) 0); [lia|].
Qed.

(** The order that [cmp_artist] decides on tracks of C strings. *)
Lemma cmp_artist_le a b :
  cstring (artist a) → cstring (artist b) →
  cstring (title a) → cstring (title b) →
  cmp_artist a b <= 0 ↔
    ci_le (artist a) (artist b)
    ∧ (fold_case (artist a) = fold_case (artist b) →
       ci_le (title a) (title b)).
Proof.
  intros Ha Hb Hta Htb. unfold cmp_artist.
  pose proof (strcasecmp_le _ _ Ha Hb) as Hle.
  pose proof (strcasecmp_zero _ _ Ha Hb) as Hz.
  pose proof (strcasecmp_le _ _ Hta Htb) as Ht.
  destruct (Z.eqb_spec (strcasecmp (artist a) (artist b)) 0) as [Heq|Hne]; simpl.
  - rewrite Ht. split; [intros ?; split; [apply Hle; lia|done]|].
    intros [_ H]. by apply H, Hz.
  - rewrite Hle. split; [|tauto]. intros H. split; [done|].
    intros ?%Hz. done.
Qed.

(** In an array whose neighbours are in a transitive order, every
    element is in order with all that follow it. *)
Lemma adjacent_all_pairs {A} (R : A → A → Prop) (P : A → Prop) (l : list A) :
  (∀ a b c, P a → P b → P c → R a b → R b c → R a c) →
  Forall P l →
  (∀ i a b, l !! i = Some a → l !! S i = Some b → R a b) →
  ∀ i j a b, (i < j)%nat → l !! i = Some a → l !! j = Some b → R a b.
Proof.
  intros Htrans HP Hadj i j. revert i.
  induction j as [|j IH]; intros i a b Hij Ha Hb; [lia|].
  destruct (decide (i = j)) as [->|Hne]; [by apply (Hadj j)|].
  destruct (lookup_lt_is_Some_2 l j) as [m Hm].
  { apply lookup_lt_Some in Hb. lia. }
  rewrite Forall_forall in HP.
  apply (Htrans a m b); eauto using list_elem_of_lookup_2.
  apply (IH i); [lia|done..].
Qed.

Lemma qsort_meets_contract cmp l :
  (∀ a b, cmp b a = - cmp a b) → qsort_result cmp l (qsort cmp l).
Proof.
  intros Hanti. split; [apply qsort_perm|]. apply Sorted_adjacent.
  induction l as [|x l IH]; simpl; [constructor|].
  apply qsort_insert_sorted; [|done]. intros a b. rewrite (Hanti a b). lia.
Qed.

(** [sort title] on tracks whose titles are C strings: the playlist is
    permuted so that every track is followed only by tracks whose title
    is the same or later in the order of the lower-cased bytes.  So is
    every array that meets the contract of [qsort] for [cmp_title]. *)
Theorem sort_by_title_sorted (pl : Playlist) :
  Forall (λ t, cstring (title t)) (items pl) →
  (items pl ≡ₚ items (sort_by_title pl)
   ∧ cap (sort_by_title pl) = cap pl
   ∧ qsort_result cmp_title (items pl) (items (sort_by_title pl)))
  ∧ (∀ out, qsort_result cmp_title (items pl) out →
       ∀ i j a b, (i < j)%nat → out !! i = Some a → out !! j = Some b →
         ci_le (title a) (title b)).
Proof.
  intros Hall. split.
  - split; [apply qsort_perm|split; [done|]].
    apply qsort_meets_contract. intros a b. apply strcasecmp_antisym.
  - intros out [Hperm Hadj]. rewrite Hperm in Hall.
    apply (adjacent_all_pairs (λ a b, ci_le (title a) (title b))
             (λ t, cstring (title t))); [|done|].
    + intros a b c _ _ _. apply lex_le_trans.
    + intros i a b Ha Hb. rewrite Forall_forall in Hall.
      apply strcasecmp_le;
        [apply Hall; by eapply list_elem_of_lookup_2..|by apply (Hadj i)].
Qed.

Lemma sort_by_title_sorted_witness :
  title <$> items (sort_by_title mixed_case)
  = [lit "Apple"; lit "banana"; lit "cherry"]
  ∧ ∀ i j a b, (i < j)%nat →
      items (sort_by_title mixed_case) !! i = Some a →
      items (sort_by_title mixed_case) !! j = Some b →
      ci_le (title a) (title b).
Proof.
  destruct (sort_by_title_sorted mixed_case) as [(_ & _ & Hq) Hsorted].
  - repeat (apply Forall_cons; split; [by apply cstring_strchr|]). constructor.
  - split; [reflexivity|]. by apply Hsorted.
Defined.

(** [sort artist] on tracks whose artists and titles are C strings:
    every track is followed only by tracks whose artist is the same or
    later in the order of the lower-cased bytes, and among tracks whose
    artists differ in letter case only, by tracks whose title is the
    same or later. *)
Theorem sort_by_artist_sorted (pl : Playlist) :
  Forall (λ t, cstring (artist t) ∧ cstring (title t)) (items pl) →
  (items pl ≡ₚ items (sort_by_artist pl)
   ∧ qsort_result cmp_artist (items pl) (items (sort_by_artist pl)))
  ∧ (∀ out, qsort_result cmp_artist (items pl) out →
       ∀ i j a b, (i < j)%nat → out !! i = Some a → out !! j = Some b →
         ci_le (artist a) (artist b)
         ∧ (fold_case (artist a) = fold_case (artist b) →
            ci_le (title a) (title b))).
Proof.
  intros Hall. split.
  - split; [apply qsort_perm|].
    apply qsort_meets_contract. apply cmp_artist_antisym.
  - intros out [Hperm Hadj]. rewrite Hperm in Hall.
    apply (adjacent_all_pairs
             (λ a b, ci_le (artist a) (artist b)
                     ∧ (fold_case (artist a) = fold_case (artist b) →
                        ci_le (title a) (title b)))
             (λ t, cstring (artist t) ∧ cstring (title t))); [|done|].
    + intros a b c _ _ _ [Hab Htab] [Hbc Htbc].
      split; [by eapply lex_le_trans|]. intros Hac.
      assert (fold_case (artist a) = fold_case (artist b)).
      { apply lex_le_antisym; [done|]. unfold ci_le in *. by rewrite Hac. }
      assert (fold_case (artist b) = fold_case (artist c)) by congruence.
      eapply lex_le_trans; [by apply Htab|by apply Htbc].
    + intros i a b Ha Hb. rewrite Forall_forall in Hall.
      destruct (Hall a) as [? ?]; [by eapply list_elem_of_lookup_2|].
      destruct (Hall b) as [? ?]; [by eapply list_elem_of_lookup_2|].
      apply cmp_artist_le; try done. by apply (Hadj i).
Qed.

Lemma sort_by_artist_sorted_witness :
  title <$> items (sort_by_artist mixed_case)
  = [lit "Apple"; lit "cherry"; lit "banana"]
  ∧ ∀ i j a b, (i < j)%nat →
      items (sort_by_artist mixed_case) !! i = Some a →
      items (sort_by_artist mixed_case) !! j = Some b →
      ci_le (artist a) (artist b).
Proof.
  destruct (sort_by_artist_sorted mixed_case) as [[_ Hq] Hsorted].
  - repeat (apply Forall_cons; split; [split; by apply cstring_strchr|]).
    constructor.
  - split; [reflexivity|]. intros i j a b Hij Ha Hb.
    by destruct (Hsorted _ Hq i j a b Hij Ha Hb).
Defined.

(** ** Sorting by duration, within the range of the subtraction *)

(** [sort dur] on tracks whose durations are not negative: the playlist
    is permuted so that every track is followed only by tracks that are
    as long or longer.  So is every array that meets the contract of
    [qsort] for [cmp_duration]. *)
Theorem sort_by_duration_sorted (pl : Playlist) :
  Forall (λ t, 0 <= duration t <= INT_MAX) (items pl) →
  (items pl ≡ₚ items (sort_by_duration pl)
   ∧ qsort_result cmp_duration (items pl) (items (sort_by_duration pl)))
  ∧ (∀ out, qsort_result cmp_duration (items pl) out →
       ∀ i j a b, (i < j)%nat → out !! i = Some a → out !! j = Some b →
         duration a <= duration b).
Proof.
  intros Hall. split.
  - split; [apply qsort_perm|apply qsort_cmp_duration].
  - intros out Hq.
    pose proof (qsort_result_ascending _ _ Hall Hq) as Hadj.
    apply (adjacent_all_pairs (λ a b, duration a <= duration b) (λ _, True));
      [intros; lia|by apply Forall_true|exact Hadj].
Qed.

Lemma sort_by_duration_sorted_witness :
  duration <$> items (sort_by_duration three_tracks) = [1; 2; 3]
  ∧ ∀ i j a b, (i < j)%nat →
      items (sort_by_duration three_tracks) !! i = Some a →
      items (sort_by_duration three_tracks) !! j = Some b →
      duration a <= duration b.
Proof.
  destruct (sort_by_duration_sorted three_tracks) as [[_ Hq] Hsorted].
  - repeat (apply Forall_cons; split; [by vm_compute|]). constructor.
  - split; [reflexivity|]. by apply Hsorted.
Defined.

(** ** Playing a track *)

(** The time that [play_track] sleeps: the duration of the track when
    it is from 0 to 5 seconds, 5 seconds when it is longer.  A negative
    duration reaches [sleep] as an [unsigned int] of 2^31 or more. *)
Theorem sleep_seconds_spec (t : Track) :
  int_range (duration t) →
  (0 <= duration t → sleep_seconds t = Z.min (duration t) 5)
  ∧ (duration t < 0 →
       sleep_seconds t = 2 ^ 32 + duration t ∧ 2 ^ 31 <= sleep_seconds t).
Proof.
  unfold int_range, INT_MIN, INT_MAX, sleep_seconds, demo_seconds.
  intros Hd. split; intros Hs.
  - destruct (Z.ltb_spec (duration t) 6); rewrite Z.mod_small; lia.
  - destruct (Z.ltb_spec (duration t) 6); [|lia].
    assert (duration t mod 2 ^ 32 = 2 ^ 32 + duration t) as ->; [|lia].
    symmetry. apply (Z.mod_unique _ _ (-1)); lia.
Qed.

Lemma sleep_seconds_spec_witness :
  sleep_seconds (mkTrack (lit "A") (lit "x") (lit "p") 300) = Z.min 300 5
  ∧ 2 ^ 31 <= sleep_seconds (mkTrack (lit "A") (lit "x") (lit "p") (-1)).
Proof.
  split.
  - apply (sleep_seconds_spec (mkTrack (lit "A") (lit "x") (lit "p") 300));
      by vm_compute.
  - apply (sleep_seconds_spec (mkTrack (lit "A") (lit "x") (lit "p") (-1)));
      by vm_compute.
Defined.

(** ** More on the fields of a line *)

Lemma escape_body_inj s1 s2 : escape_body s1 = escape_body s2 → s1 = s2.
Proof.
  revert s2. induction s1 as [|c s1 IH]; intros [|d s2]; simpl; try done.
  - destruct (Ascii.eqb d DQUOTE); done.
  - destruct (Ascii.eqb c DQUOTE); done.
  - destruct (Ascii.eqb_spec c DQUOTE) as [->|Hc],
             (Ascii.eqb_spec d DQUOTE) as [->|Hd].
    + intros [= H]. f_equal. by apply IH.
    + intros [= ? _]. congruence.
    + intros [= ? _]. congruence.
    + intros [= -> H]. f_equal. by apply IH.
Qed.

(** Two different fields are never written as the same text. *)
Theorem csv_escape_field_inj (s1 s2 : list ascii) :
  csv_escape_field s1 = csv_escape_field s2 → s1 = s2.
Proof.
  unfold csv_escape_field.
  destruct (nonnull (strchr s1 COMMA) || nonnull (strchr s1 DQUOTE)) eqn:H1,
           (nonnull (strchr s2 COMMA) || nonnull (strchr s2 DQUOTE)) eqn:H2.
  - intros [= H]. apply app_inj_tail in H as [H _]. by apply escape_body_inj.
  - intros <-. apply orb_false_iff in H2 as [_ H2].
    apply not_elem_of_strchr in H2. exfalso. apply H2. left.
  - intros ->. apply orb_false_iff in H1 as [_ H1].
    apply not_elem_of_strchr in H1. exfalso. apply H1. left.
  - done.
Qed.

Lemma skip_to_comma_app junk rest :
  COMMA ∉ junk → skip_to_comma (junk ++ rest) = skip_to_comma rest.
Proof.
  induction junk as [|c junk IH]; [done|].
  intros [Hne Hj]%not_elem_of_cons. simpl.
  destruct (Ascii.eqb_spec c COMMA) as [->|_]; [done|]. by apply IH.
Qed.

(** The quoted loop on a field that [escape_body] wrote, whatever
    follows its closing quote, and when no closing quote follows. *)
Lemma read_quoted_lenient s ti :
  (ti + length s < MAX_LINE)%nat →
  read_quoted (escape_body s) ti = Some (s, [])
  ∧ ∀ tail, head tail ≠ Some DQUOTE →
      ∃ s1, read_quoted (escape_body s ++ DQUOTE :: tail) ti = Some (s, s1)
            ∧ skip_to_comma s1 = skip_to_comma tail.
Proof.
  revert ti. induction s as [|c s IH]; intros ti Hlen.
  - split; [done|]. intros tail Htail. exists tail. split; [|done].
    simpl. destruct tail as [|d tail]; [done|].
    destruct (Ascii.eqb_spec d DQUOTE) as [->|_]; done.
  - simpl in Hlen. cbn [escape_body].
    destruct (Ascii.eqb_spec c DQUOTE) as [->|Hne].
    + destruct (IH (S ti)) as [Hopen Hclosed]; [lia|]. split.
      * cbn [read_quoted]. change (Ascii.eqb DQUOTE DQUOTE) with true.
        cbv iota. destruct (Nat.leb_spec MAX_LINE ti); [lia|].
        by rewrite Hopen.
      * intros tail Htail. destruct (Hclosed tail Htail) as (s1 & Hr & Hs).
        exists s1. split; [|done].
        cbn [read_quoted app]. change (Ascii.eqb DQUOTE DQUOTE) with true.
        cbv iota. destruct (Nat.leb_spec MAX_LINE ti); [lia|].
        by rewrite Hr.
    + destruct (Nat.leb_spec MAX_LINE (S ti + 1)) as [Hfull|Hroom].
      * assert (s = []) as -> by (destruct s; [done|simpl in Hlen; lia]).
        split.
        -- cbn [read_quoted escape_body].
           destruct (Ascii.eqb_spec c DQUOTE) as [|_]; [done|].
           destruct (Nat.leb_spec MAX_LINE ti); [lia|].
           by destruct (Nat.leb_spec MAX_LINE (S ti + 1)); [|lia].
        -- intros tail Htail. exists (DQUOTE :: tail). split; [|done].
           cbn [read_quoted escape_body app].
           destruct (Ascii.eqb_spec c DQUOTE) as [|_]; [done|].
           destruct (Nat.leb_spec MAX_LINE ti); [lia|].
           by destruct (Nat.leb_spec MAX_LINE (S ti + 1)); [|lia].
      * destruct (IH (S ti)) as [Hopen Hclosed]; [lia|]. split.
        -- cbn [read_quoted].
           destruct (Ascii.eqb_spec c DQUOTE) as [|_]; [done|].
           destruct (Nat.leb_spec MAX_LINE ti); [lia|].
           destruct (Nat.leb_spec MAX_LINE (S ti + 1)); [lia|].
           by rewrite Hopen.
        -- intros tail Htail. destruct (Hclosed tail Htail) as (s1 & Hr & Hs).
           exists s1. split; [|done]. cbn [read_quoted app].
           destruct (Ascii.eqb_spec c DQUOTE) as [|_]; [done|].
           destruct (Nat.leb_spec MAX_LINE ti); [lia|].
           destruct (Nat.leb_spec MAX_LINE (S ti + 1)); [lia|].
           by rewrite Hr.
Qed.

(** Quoting that is not well formed.  A quoted field whose closing
    quote is missing is read up to the end of the line.  What stands
    between a closing quote and the next comma is dropped.  Both hold
    for a field that fits the buffer [tmp] with its terminator. *)
Theorem csv_read_field_lenient (s : list ascii) :
  (length s < MAX_LINE)%nat →
  csv_read_field (Some (DQUOTE :: escape_body s)) = Some (s, None)
  ∧ (∀ junk rest, after_quote junk → field_end rest →
       csv_read_field (Some (DQUOTE :: escape_body s ++ DQUOTE :: junk ++ rest))
       = Some (s, or_null (skip_comma rest))).
Proof.
  intros Hlen. destruct (read_quoted_lenient s 0) as [Hopen Hclosed]; [lia|].
  split.
  - cbn [csv_read_field]. change (Ascii.eqb DQUOTE DQUOTE) with true. cbv iota.
    rewrite Hopen. by destruct (Nat.leb_spec MAX_LINE (length s)); [lia|].
  - intros junk rest [Hcomma Hhead] Hrest.
    destruct (Hclosed (junk ++ rest)) as (s1 & Hr & Hs).
    { destruct junk as [|c junk]; [|done]. simpl.
      destruct Hrest as [->|[r ->]]; [done|]. simpl. discriminate. }
    cbn [csv_read_field]. change (Ascii.eqb DQUOTE DQUOTE) with true. cbv iota.
    rewrite Hr, Hs. destruct (Nat.leb_spec MAX_LINE (length s)); [lia|].
    by rewrite skip_to_comma_app, skip_to_comma_field_end.
Qed.

Lemma csv_read_field_lenient_witness :
  csv_read_field (Some (DQUOTE :: lit "Song, A")) = Some (lit "Song, A", None)
  ∧ csv_read_field
      (Some (DQUOTE :: lit "Song, A" ++ DQUOTE :: lit " (live)" ++ lit ",Artist"))
    = Some (lit "Song, A", Some (lit "Artist")).
Proof.
  destruct (csv_read_field_lenient (lit "Song, A")) as [Hopen Hclosed].
  - vm_compute. lia.
  - split; [exact Hopen|].
    apply (Hclosed (lit " (live)") (lit ",Artist")).
    + split; [apply not_elem_of_strchr; by vm_compute|discriminate].
    + right. by exists (lit "Artist").
Defined.

(** ** More on loading *)

(** The loader reads four fields of a line and no more: what follows
    the comma after the fourth field does not change the track that the
    line adds. *)
Theorem load_record_four_fields (pl : Playlist) (buf a b c d junk : list ascii) :
  a ≠ [] →
  (length a < MAX_LINE)%nat → (length b < MAX_LINE)%nat →
  (length c < MAX_LINE)%nat → (length d < MAX_LINE)%nat →
  line_of buf = csv_escape_field a ++ COMMA :: csv_escape_field b
                ++ COMMA :: csv_escape_field c
                ++ COMMA :: csv_escape_field d ++ COMMA :: junk →
  load_record pl buf = Some (add_track pl a b c (atoi d)).
Proof.
  intros Ha La Lb Lc Ld. unfold line_of, load_record. intros ->.
  assert (Hskip : ∀ r, skip_comma (COMMA :: r) = r) by done.
  rewrite csv_read_field_escaped by (done || apply field_end_comma).
  rewrite Hskip, csv_read_field_next by (done || apply field_end_comma).
  rewrite Hskip, csv_read_field_next by (done || apply field_end_comma).
  rewrite Hskip, csv_read_field_next by (done || apply field_end_comma).
  by rewrite load_record_nonempty.
Qed.

Lemma load_record_four_fields_witness :
  load_record init_playlist (lit "Song A,Artist X,Album 1,125,extra,more" ++ [NL])
  = Some (add_track init_playlist (lit "Song A") (lit "Artist X")
            (lit "Album 1") (atoi (lit "125"))).
Proof.
  apply (load_record_four_fields init_playlist _ (lit "Song A") (lit "Artist X")
           (lit "Album 1") (lit "125") (lit "extra,more"));
    try (vm_compute; lia); [discriminate|by vm_compute].
Defined.

(** Saving what was loaded from a saved file writes the same file
    again, for a playlist of tracks that the loader accepts. *)
Theorem save_load_save (c pl' : Playlist) :
  Forall loadable (items c) →
  load_playlist_csv init_playlist (save_playlist_csv c true).2 = Some (1, pl') →
  save_playlist_csv pl' true = save_playlist_csv c true.
Proof.
  intros Hall Hload.
  destruct (load_saved init_playlist c Hall) as (pl1 & Hload1 & Hitems).
  rewrite Hload in Hload1. injection Hload1 as <-.
  unfold save_playlist_csv. by rewrite Hitems.
Qed.

Lemma save_load_save_witness :
  save_playlist_csv two_songs true = save_playlist_csv two_songs true.
Proof.
  apply (save_load_save two_songs two_songs); [sample_track|by vm_compute].
Defined.

Lemma fgets_bytes_stop n f l r :
  fgets_bytes n f = (l, r) → r ≠ [] → last l = Some NL ∨ length l = n.
Proof.
  revert f l r. induction n as [|n IH]; intros f l r.
  - destruct f; simpl; intros [= <- <-] _; by right.
  - destruct f as [|c f]; cbn [fgets_bytes]; [by intros [= <- <-]|].
    destruct (Ascii.eqb_spec c NL) as [->|_].
    + intros [= <- <-] _. by left.
    + destruct (fgets_bytes n f) as [l0 r0] eqn:Hrec. intros [= <- <-] Hr.
      destruct (IH _ _ _ Hrec Hr) as [Hl|Hl].
      * left. destruct l0; [done|]. by rewrite last_cons, Hl.
      * right. simpl. lia.
Qed.

Lemma fgets_bytes_app n f1 f2 l r :
  fgets_bytes n f1 = (l, r) → last l = Some NL ∨ length l = n →
  fgets_bytes n (f1 ++ f2) = (l, r ++ f2).
Proof.
  revert f1 l r. induction n as [|n IH]; intros f1 l r.
  - destruct f1; simpl; intros [= <- <-]; [|done].
    intros _. by destruct f2.
  - destruct f1 as [|c f1]; cbn [fgets_bytes app].
    + intros [= <- <-] [?|?]; done.
    + destruct (Ascii.eqb_spec c NL) as [->|Hne]; [by intros [= <- <-]|].
      destruct (fgets_bytes n f1) as [l0 r0] eqn:Hrec. intros [= <- <-] Hstop.
      rewrite (IH f1 l0 r0); [done..|].
      destruct Hstop as [Hl|Hl]; [left|right; simpl in Hl; lia].
      destruct l0 as [|a l0]; [simpl in Hl; congruence|].
      by rewrite last_cons_cons in Hl.
Qed.

(** Reading a line from a text that ends a line, with more text after
    it, takes the same line and leaves a text that still ends a line or
    is empty. *)
Lemma fgets_app f1 f2 buf r :
  ends_line f1 → fgets MAX_LINE f1 = Some (buf, r) →
  fgets MAX_LINE (f1 ++ f2) = Some (buf, r ++ f2) ∧ (r = [] ∨ ends_line r).
Proof.
  intros [g Hg] Hf. pose proof (fgets_some _ _ _ Hf) as [Heq Hlen].
  unfold fgets in *. destruct f1 as [|c f1]; [done|].
  assert (Hb : fgets_bytes (MAX_LINE - 1) (c :: f1) = (buf, r)) by congruence.
  assert (Hr : r = [] ∨ ends_line r).
  { destruct r as [|x r _] using rev_ind; [by left|right].
    rewrite Heq, app_assoc in Hg. apply app_inj_tail in Hg as [_ ->].
    by exists r. }
  split; [|done]. cbn [app]. f_equal.
  change (c :: f1 ++ f2) with ((c :: f1) ++ f2).
  apply fgets_bytes_app; [done|].
  destruct Hr as [->|[g' ->]].
  - left. rewrite app_nil_r in Heq. by rewrite <- Heq, Hg, last_snoc.
  - apply (fgets_bytes_stop _ _ _ _ Hb). by destruct g'.
Qed.

(** Loading goes line by line: the lines of a text that ends a line,
    followed by more text, are loaded first and as they are without the
    text that follows, and the loading of that text goes on from the
    playlist they give. *)
Theorem load_records_app (f1 f2 : list ascii) (pl : Playlist) :
  f1 = [] ∨ ends_line f1 →
  load_records pl (f1 ++ f2)
  = match load_records pl f1 with
    | Some pl1 => load_records pl1 f2
    | None => None
    end.
Proof.
  remember (length f1) as n eqn:Hn. revert f1 Hn pl.
  induction n as [n IH] using lt_wf_ind. intros f1 -> pl [->|Hend].
  { by rewrite (load_records_eq pl []). }
  destruct (fgets MAX_LINE f1) as [[buf r]|] eqn:Hg.
  2:{ apply fgets_none in Hg as ->. by rewrite (load_records_eq pl []). }
  destruct (fgets_app f1 f2 buf r Hend Hg) as [Hg' Hr].
  pose proof (fgets_some _ _ _ Hg) as [Heq Hlen].
  rewrite (load_records_eq pl (f1 ++ f2)), Hg'.
  rewrite (load_records_eq pl f1), Hg.
  destruct (load_record pl buf) as [pl1|]; [|done].
  apply (IH (length r)); [|done|done].
  rewrite Heq, length_app. lia.
Qed.

Lemma load_records_app_witness :
  load_records init_playlist ((lit "Song A,x,y,1" ++ [NL]) ++ lit "Song B,z,w,2")
  = match load_records init_playlist (lit "Song A,x,y,1" ++ [NL]) with
    | Some pl1 => load_records pl1 (lit "Song B,z,w,2")
    | None => None
    end.
Proof.
  apply load_records_app. right. by exists (lit "Song A,x,y,1").
Defined.

(** ** More on searching *)

Lemma is_substring_refl s : is_substring s s.
Proof. exists [], []. by rewrite app_nil_r. Qed.

(** Every track is found by its own title, artist or album, typed in
    any letter case; and two terms that differ in letter case only find
    the same tracks. *)
Theorem search_by_field (pl : Playlist) (i : nat) (t : Track) (term : list ascii) :
  items pl !! i = Some t →
  (map tolower term = map tolower (title t)
   ∨ map tolower term = map tolower (artist t)
   ∨ map tolower term = map tolower (album t) →
   (i, t) ∈ search_hits (search_playlist pl term))
  ∧ (∀ term', map tolower term' = map tolower term →
       search_hits (search_playlist pl term')
       = search_hits (search_playlist pl term)).
Proof.
  intros Hi. split.
  - intros Heq. rewrite search_playlist_hits, search_loop_hits.
    exists i. split; [done|]. split; [done|].
    apply track_matches_spec. unfold track_has, ci_substring.
    destruct Heq as [-> | [-> | ->]]; auto using is_substring_refl.
  - intros term' Heq. rewrite !search_playlist_hits.
    unfold str_tolower_copy. by rewrite Heq.
Qed.

Lemma search_by_field_witness :
  (1%nat, mkTrack (lit "B") (lit "y") (lit "q") 2)
  ∈ search_hits (search_playlist three_tracks (lit "b")).
Proof.
  apply (search_by_field three_tracks 1 (mkTrack (lit "B") (lit "y") (lit "q") 2));
    [reflexivity|by left].
Defined.

Lemma csv_escape_field_inj_witness :
  csv_escape_field (lit "Song, A") = csv_escape_field (lit "Song, A")
  ∧ lit "Song, A" = lit "Song, A".
Proof.
  split; [reflexivity|].
  apply (csv_escape_field_inj (lit "Song, A") (lit "Song, A")). reflexivity.
Defined.
